(** * Zone planner: a shallow embedding of the zone-planning engine

    The planner clusters points of interest into zones (greedy clustering by
    distance from a seed, then a rebalancing merge of undersized clusters),
    builds a bounding box per zone and orders the zones for display.

    Numbers.  A JavaScript [number] is modelled as an exact rational or one
    of the three special values [Infinity], [-Infinity] and [NaN]: IEEE
    arithmetic without rounding and without a signed zero.  The functions of
    [Math] that ECMAScript leaves implementation-approximated are taken as an
    interface ([MathLib]); every theorem holds for every implementation.

    Counts ([minPoisPerZone], [maxPoisPerZone]) are integers. *)

From Stdlib Require Import QArith Qcanon Qcabs Lqa.
From stdpp Require Import base decidable numbers option list gmap pretty strings sorting.
From Equations.Prop Require Import Equations Logic.


(* ====================================================================== *)
(** ** Numbers *)
(* ====================================================================== *)

Inductive number : Type :=
  | Fin (q : Qc)
  | PosInf
  | NegInf
  | NaN.

Definition num_of_Z (z : Z) : number := Fin (Q2Qc (inject_Z z)).
Definition num_of_nat (n : nat) : number := num_of_Z (Z.of_nat n).
Definition num_zero : number := num_of_Z 0.

(** [a < b]; every comparison with [NaN] is false. *)
Definition num_ltb (a b : number) : bool :=
  match a, b with
  | Fin x, Fin y => bool_decide (x < y)%Qc
  | NegInf, Fin _ | NegInf, PosInf | Fin _, PosInf => true
  | _, _ => false
  end.

(** [a <= b]. *)
Definition num_leb (a b : number) : bool :=
  match a, b with
  | Fin x, Fin y => bool_decide (x <= y)%Qc
  | NegInf, Fin _ | NegInf, PosInf | Fin _, PosInf => true
  | NegInf, NegInf | PosInf, PosInf => true
  | _, _ => false
  end.

(** [a > b] and [a >= b]. *)
Definition num_gtb (a b : number) : bool := num_ltb b a.
Definition num_geb (a b : number) : bool := num_leb b a.

Definition num_opp (a : number) : number :=
  match a with
  | Fin x => Fin (- x)%Qc
  | PosInf => NegInf
  | NegInf => PosInf
  | NaN => NaN
  end.

Definition num_add (a b : number) : number :=
  match a, b with
  | Fin x, Fin y => Fin (x + y)%Qc
  | NaN, _ | _, NaN => NaN
  | PosInf, NegInf | NegInf, PosInf => NaN
  | PosInf, _ | _, PosInf => PosInf
  | NegInf, _ | _, NegInf => NegInf
  end.

Definition num_sub (a b : number) : number := num_add a (num_opp b).

(** Sign of a rational as used by the products and quotients with an
    infinite operand: [Lt] negative, [Eq] zero, [Gt] positive. *)
Definition Qc_sign (x : Qc) : comparison := (x ?= 0)%Qc.

Definition inf_of_sign (s : comparison) : number :=
  match s with
  | Gt => PosInf
  | Lt => NegInf
  | Eq => NaN
  end.

Definition num_sign (a : number) : option comparison :=
  match a with
  | Fin x => Some (Qc_sign x)
  | PosInf => Some Gt
  | NegInf => Some Lt
  | NaN => None
  end.

Definition sign_mul (s t : comparison) : comparison :=
  match s, t with
  | Eq, _ | _, Eq => Eq
  | Gt, Gt | Lt, Lt => Gt
  | _, _ => Lt
  end.

Definition num_mul (a b : number) : number :=
  match a, b with
  | Fin x, Fin y => Fin (x * y)%Qc
  | _, _ =>
      match num_sign a, num_sign b with
      | Some s, Some t => inf_of_sign (sign_mul s t)
      | _, _ => NaN
      end
  end.

(** Division; a zero divisor is the positive zero. *)
Definition num_div (a b : number) : number :=
  match a, b with
  | Fin x, Fin y =>
      if bool_decide (y = 0%Qc) then inf_of_sign (Qc_sign x) else Fin (x / y)%Qc
  | Fin _, (PosInf | NegInf) => num_zero
  | PosInf, Fin y => if bool_decide (y < 0)%Qc then NegInf else PosInf
  | NegInf, Fin y => if bool_decide (y < 0)%Qc then PosInf else NegInf
  | _, _ => NaN
  end.

(** [Math.abs]. *)
Definition Math_abs (a : number) : number :=
  match a with
  | Fin x => Fin (Qcabs x)
  | PosInf | NegInf => PosInf
  | NaN => NaN
  end.

Declare Scope num_scope.
Delimit Scope num_scope with num.
Bind Scope num_scope with number.
Infix "+" := num_add : num_scope.
Infix "-" := num_sub : num_scope.
Infix "*" := num_mul : num_scope.
Infix "/" := num_div : num_scope.
Infix "<?" := num_ltb : num_scope.
Infix "<=?" := num_leb : num_scope.
Infix ">?" := num_gtb : num_scope.
Infix ">=?" := num_geb : num_scope.

(** The implementation-approximated functions of [Math] the planner calls. *)
Class MathLib : Type := {
  Math_sin : number → number;
  Math_cos : number → number;
  Math_sqrt : number → number;
  Math_atan2 : number → number → number;
}.

(** [Math.PI], the double nearest to pi. *)
Definition Math_PI : number := Fin (Q2Qc (884279719003555 # 281474976710656)).

(* ====================================================================== *)
(** ** Types *)
(* ====================================================================== *)

Record Coordinate : Type := mkCoordinate { coord_lat : number; coord_lng : number }.

Record Bounds : Type := mkBounds {
  north : number;
  south : number;
  east : number;
  west : number;
}.

Record MapSize : Type := mkMapSize { width : number; height : number }.

(** [ZoneConfig]: every option may be left out. *)
Record ZoneConfig : Type := mkZoneConfig {
  minPoisPerZone : option Z;
  maxPoisPerZone : option Z;
  clusterRadiusMeters : option number;
  mapSize : option MapSize;
}.

(** [Required<ZoneConfig>]. *)
Record RequiredZoneConfig : Type := mkRequiredZoneConfig {
  r_minPoisPerZone : Z;
  r_maxPoisPerZone : Z;
  r_clusterRadiusMeters : number;
  r_mapSize : MapSize;
}.

Record Zone : Type := mkZone {
  id : string;
  poiIndices : list nat;
  bounds : Bounds;
  center : Coordinate;
  zoom : number;
}.

(** [POILike]: what the planner needs of a caller's record. *)
Class POILike (T : Type) : Type := {
  lat : T → number;
  lng : T → number;
}.

#[export] Instance Coordinate_POILike : POILike Coordinate :=
  {| lat := coord_lat; lng := coord_lng |}.

(* ====================================================================== *)
(** ** The map planner helpers the engine imports *)
(* ====================================================================== *)

(** Modelled from the spec: [calculateBounds] of the module [../mapPlanner],
    which is not among the sources.  The spec gives it as the min/max of
    latitude and longitude across the points; the helper of the same name in
    the race mutations has this shape, a scan from the infinities. *)
Definition calculateBounds (pois : list Coordinate) : Bounds :=
  foldl (λ b poi,
           {| north := if (coord_lat poi >? north b)%num then coord_lat poi else north b;
              south := if (coord_lat poi <? south b)%num then coord_lat poi else south b;
              east := if (coord_lng poi >? east b)%num then coord_lng poi else east b;
              west := if (coord_lng poi <? west b)%num then coord_lng poi else west b |})
        {| north := NegInf; south := PosInf; east := NegInf; west := PosInf |}
        pois.

(** Modelled from the spec: [calculateCenter] of the module [../mapPlanner],
    which is not among the sources: the midpoint of the bounds. *)
Definition calculateCenter (b : Bounds) : Coordinate :=
  {| coord_lat := ((north b + south b) / num_of_Z 2)%num;
     coord_lng := ((east b + west b) / num_of_Z 2)%num |}.

(** [calculateZoom] of the same module: the spec fixes its signature only,
    so it is an interface. *)
Class MapPlanner : Type := {
  calculateZoom : Bounds → MapSize → number;
}.

(* ====================================================================== *)
(** ** Constants *)
(* ====================================================================== *)

Definition DEFAULT_CONFIG : RequiredZoneConfig :=
  {| r_minPoisPerZone := 3;
     r_maxPoisPerZone := 10;
     r_clusterRadiusMeters := num_of_Z 1000;
     r_mapSize := {| width := num_of_Z 400; height := num_of_Z 600 |} |}.

Definition EARTH_RADIUS_METERS : number := num_of_Z 6371000.

(** The literal [0.01] of the zone comparator. *)
Definition hundredth : number := Fin (Q2Qc (1 # 100)).

(** [{ ...DEFAULT_CONFIG, ...config }] *)
Definition mergeConfig (config : option ZoneConfig) : RequiredZoneConfig :=
  match config with
  | None => DEFAULT_CONFIG
  | Some c =>
      {| r_minPoisPerZone := default (r_minPoisPerZone DEFAULT_CONFIG) (minPoisPerZone c);
         r_maxPoisPerZone := default (r_maxPoisPerZone DEFAULT_CONFIG) (maxPoisPerZone c);
         r_clusterRadiusMeters :=
           default (r_clusterRadiusMeters DEFAULT_CONFIG) (clusterRadiusMeters c);
         r_mapSize := default (r_mapSize DEFAULT_CONFIG) (mapSize c) |}
  end.

(* ====================================================================== *)
(** ** Array.prototype.sort *)
(* ====================================================================== *)

(** [Array.prototype.sort(comparefn)] is stable, and a comparator result that
    is [NaN] counts as zero.  The model is the stable insertion sort: for a
    consistent comparator it yields the one stable sorted order; it also
    fixes an order when the comparator is not consistent, where ECMAScript
    leaves the order to the implementation. *)
Fixpoint sort_insert {A : Type} (comparefn : A → A → number) (x : A) (l : list A) : list A :=
  match l with
  | [] => [x]
  | y :: l' =>
      if (comparefn x y >? num_zero)%num
      then y :: sort_insert comparefn x l'
      else x :: y :: l'
  end.

Definition Array_sort {A : Type} (comparefn : A → A → number) (l : list A) : list A :=
  foldr (sort_insert comparefn) [] l.

(* ====================================================================== *)
(** ** Distance calculation *)
(* ====================================================================== *)

Section Planner.
Context {math : MathLib}.

Definition toRad (deg : number) : number := ((deg * Math_PI) / num_of_Z 180)%num.

Definition haversineDistance (lat1 lng1 lat2 lng2 : number) : number :=
  let dLat := toRad (lat2 - lat1)%num in
  let dLng := toRad (lng2 - lng1)%num in
  let a :=
    (Math_sin (dLat / num_of_Z 2) * Math_sin (dLat / num_of_Z 2) +
     Math_cos (toRad lat1) * Math_cos (toRad lat2) *
       Math_sin (dLng / num_of_Z 2) * Math_sin (dLng / num_of_Z 2))%num in
  let c :=
    (num_of_Z 2 * Math_atan2 (Math_sqrt a) (Math_sqrt (num_of_Z 1 - a)))%num in
  (EARTH_RADIUS_METERS * c)%num.

(* ==================================================================== *)
(** ** Clustering algorithm *)
(* ==================================================================== *)

Context {T : Type} {poiLike : POILike T}.

(** [pois[i].lat] and [pois[i].lng].  Every index the planner reads comes
    from [pois.map((_, i) => i)] and is below [pois.length] (see
    [clusterPOIs_in_range]); past the end the JavaScript access raises,
    which the model renders as [NaN]. *)
Definition poiLat (pois : list T) (i : nat) : number :=
  match pois !! i with Some p => lat p | None => NaN end.
Definition poiLng (pois : list T) (i : nat) : number :=
  match pois !! i with Some p => lng p | None => NaN end.

(** [pois.map((_, i) => i).sort((a, b) => pois[b].lat - pois[a].lat)] *)
Definition sortedIndices (pois : list T) : list nat :=
  Array_sort (λ a b, (poiLat pois b - poiLat pois a)%num) (seq 0 (length pois)).

(** Distance from the seed to a candidate. *)
Definition seedDistance (pois : list T) (seedIndex candidateIndex : nat) : number :=
  haversineDistance (poiLat pois seedIndex) (poiLng pois seedIndex)
                    (poiLat pois candidateIndex) (poiLng pois candidateIndex).

(** The inner scan of [clusterPOIs]: the unassigned indices within the
    radius of the seed, each with its distance, in scan order. *)
Fixpoint findCandidates (pois : list T) (clusterRadiusMeters : number)
    (assigned : gset nat) (seedIndex : nat) (indices : list nat) : list (nat * number) :=
  match indices with
  | [] => []
  | candidateIndex :: rest =>
      if bool_decide (candidateIndex ∈ assigned)
      then findCandidates pois clusterRadiusMeters assigned seedIndex rest
      else
        let distance := seedDistance pois seedIndex candidateIndex in
        if (distance <=? clusterRadiusMeters)%num
        then (candidateIndex, distance)
               :: findCandidates pois clusterRadiusMeters assigned seedIndex rest
        else findCandidates pois clusterRadiusMeters assigned seedIndex rest
  end.

(** [for (const candidate of candidates) { if (cluster.length >=
    maxPoisPerZone) break; cluster.push(...); assigned.add(...) }] *)
Fixpoint addCandidates (maxPoisPerZone : Z) (cluster : list nat) (assigned : gset nat)
    (candidates : list (nat * number)) : list nat * gset nat :=
  match candidates with
  | [] => (cluster, assigned)
  | candidate :: rest =>
      if bool_decide (maxPoisPerZone ≤ Z.of_nat (length cluster))%Z
      then (cluster, assigned)
      else addCandidates maxPoisPerZone (cluster ++ [candidate.1])
             ({[candidate.1]} ∪ assigned) rest
  end.

(** The working state of the seed loop. *)
Record ClusterState : Type := mkClusterState {
  st_assigned : gset nat;
  st_clusters : list (list nat);
}.

(** One iteration of [for (const seedIndex of sortedIndices)]. *)
Definition seedStep (pois : list T) (config : RequiredZoneConfig) (indices : list nat)
    (st : ClusterState) (seedIndex : nat) : ClusterState :=
  if bool_decide (seedIndex ∈ st_assigned st) then st
  else
    let assigned := {[seedIndex]} ∪ st_assigned st in
    let candidates :=
      findCandidates pois (r_clusterRadiusMeters config) assigned seedIndex indices in
    let sorted := Array_sort (λ a b, (a.2 - b.2)%num) candidates in
    let '(cluster, assigned') :=
      addCandidates (r_maxPoisPerZone config) [seedIndex] assigned sorted in
    {| st_assigned := assigned'; st_clusters := st_clusters st ++ [cluster] |}.

(** The clusters of the greedy stage, before rebalancing. *)
Definition greedyClusters (pois : list T) (config : RequiredZoneConfig) : list (list nat) :=
  let indices := sortedIndices pois in
  st_clusters
    (foldl (seedStep pois config indices)
           {| st_assigned := ∅; st_clusters := [] |} indices).

(* ==================================================================== *)
(** ** Merging small clusters *)
(* ==================================================================== *)

(** [lats.reduce((a, b) => a + b, 0) / lats.length] for both coordinates. *)
Definition getClusterCenter (pois : list T) (cluster : list nat) : Coordinate :=
  let lats := map (poiLat pois) cluster in
  let lngs := map (poiLng pois) cluster in
  {| coord_lat := (foldl num_add num_zero lats / num_of_nat (length lats))%num;
     coord_lng := (foldl num_add num_zero lngs / num_of_nat (length lngs))%num |}.

Definition centerDistance (pois : list T) (ci cj : list nat) : number :=
  let centerI := getClusterCenter pois ci in
  let centerJ := getClusterCenter pois cj in
  haversineDistance (coord_lat centerI) (coord_lng centerI)
                    (coord_lat centerJ) (coord_lng centerJ).

(** One iteration of the inner [for j] loop.  The pair is
    ([bestMergeIndex], [bestDistance]); [None] is the index [-1]. *)
Definition bestStep (pois : list T) (config : RequiredZoneConfig)
    (workingClusters : list (list nat)) (i : nat)
    (best : option nat * number) (j : nat) : option nat * number :=
  if bool_decide (i = j) then best
  else
    let combinedSize :=
      (Z.of_nat (length (workingClusters !!! i))
       + Z.of_nat (length (workingClusters !!! j)))%Z in
    if bool_decide (r_maxPoisPerZone config < combinedSize)%Z then best
    else
      let distance := centerDistance pois (workingClusters !!! i) (workingClusters !!! j) in
      let maxMergeDistance := (r_clusterRadiusMeters config * num_of_Z 3)%num in
      if (distance <? best.2)%num && (distance <=? maxMergeDistance)%num
      then (Some j, distance)
      else best.

(** The inner loop over every [j], from [bestMergeIndex = -1] and
    [bestDistance = Infinity]. *)
Definition findBestMerge (pois : list T) (config : RequiredZoneConfig)
    (workingClusters : list (list nat)) (i : nat) : option nat * number :=
  foldl (bestStep pois config workingClusters i) (None, PosInf)
        (seq 0 (length workingClusters)).

(** [workingClusters[i] = [...workingClusters[i], ...workingClusters[j]];
    workingClusters.splice(j, 1)] *)
Definition mergeInto (workingClusters : list (list nat)) (i j : nat) : list (list nat) :=
  delete j (<[i := workingClusters !!! i ++ workingClusters !!! j]> workingClusters).

(** The [for i] loop over the indices still to visit: the clusters after
    the first merge, or [None] when the pass merges nothing. *)
Fixpoint mergeScan (pois : list T) (config : RequiredZoneConfig)
    (workingClusters : list (list nat)) (todo : list nat) : option (list (list nat)) :=
  match todo with
  | [] => None
  | i :: rest =>
      if bool_decide (r_minPoisPerZone config ≤ Z.of_nat (length (workingClusters !!! i)))%Z
      then mergeScan pois config workingClusters rest
      else
        match (findBestMerge pois config workingClusters i).1 with
        | Some bestMergeIndex => Some (mergeInto workingClusters i bestMergeIndex)
        | None => mergeScan pois config workingClusters rest
        end
  end.

(** One pass of the body of [while (changed)]. *)
Definition mergePass (pois : list T) (config : RequiredZoneConfig)
    (workingClusters : list (list nat)) : option (list (list nat)) :=
  mergeScan pois config workingClusters (seq 0 (length workingClusters)).

(** [while (changed) { ... }]: a pass that merges restarts the loop on the
    shortened list, a pass that merges nothing ends it.  The recursion is
    on the number of clusters. *)
Equations? mergeWhile (pois : list T) (config : RequiredZoneConfig)
    (workingClusters : list (list nat)) : list (list nat)
    by wf (length workingClusters) lt :=
  mergeWhile pois config workingClusters with inspect (mergePass pois config workingClusters) := {
    | exist _ (Some merged) Hpass => mergeWhile pois config merged
    | exist _ None _ => workingClusters
  }.
Proof.
  revert Hpass. unfold mergePass.
  generalize (seq 0 (length workingClusters)) as todo.
  induction todo as [|i todo IH]; simpl; [done|].
  case_bool_decide; [done|].
  destruct (findBestMerge pois config workingClusters i) as [[j|] d] eqn:Hbest;
    simpl; [|done].
  intros [= <-].
  assert (j < length workingClusters) as Hj.
  { revert Hbest. unfold findBestMerge.
    assert (∀ l b, (foldl (bestStep pois config workingClusters i) b l).1 = Some j →
                   b.1 = Some j ∨ j ∈ l) as Hfold.
    { induction l as [|k l IHl]; simpl; intros b Hb; [by left|].
      destruct (IHl _ Hb) as [Hk|Hk]; [|right; by constructor].
      unfold bestStep in Hk.
      repeat case_match; first [by left | right; injection Hk as ->; constructor]. }
    intros Hb.
    assert ((foldl (bestStep pois config workingClusters i) (None, PosInf)
               (seq 0 (length workingClusters))).1 = Some j) as Hsome by (by rewrite Hb).
    apply Hfold in Hsome as [Hnone|Hin]; [discriminate Hnone|].
    apply elem_of_seq in Hin. lia. }
  unfold mergeInto. rewrite length_delete.
  - rewrite length_insert. lia.
  - apply lookup_lt_is_Some. by rewrite length_insert.
Qed.

Definition mergeSmallClusters (clusters : list (list nat)) (pois : list T)
    (config : RequiredZoneConfig) : list (list nat) :=
  if bool_decide (length clusters ≤ 1) then clusters
  else mergeWhile pois config clusters.

Definition clusterPOIs (pois : list T) (config : RequiredZoneConfig) : list (list nat) :=
  if bool_decide (length pois = 0) then []
  else mergeSmallClusters (greedyClusters pois config) pois config.

(* ==================================================================== *)
(** ** Main API *)
(* ==================================================================== *)

Context {mapPlanner : MapPlanner}.

(** [`zone-${index}`] *)
Definition zoneId (index : nat) : string := "zone-" +:+ pretty index.

(** The callback of [clusters.map((poiIndices, index) => ...)]. *)
Definition buildZone (pois : list T) (mergedConfig : RequiredZoneConfig)
    (index : nat) (poiIndices : list nat) : Zone :=
  let coordinates :=
    map (λ i, {| coord_lat := poiLat pois i; coord_lng := poiLng pois i |}) poiIndices in
  let bounds := calculateBounds coordinates in
  let center := calculateCenter bounds in
  let zoom := calculateZoom bounds (r_mapSize mergedConfig) in
  {| id := zoneId index;
     poiIndices := poiIndices;
     bounds := bounds;
     center := center;
     zoom := zoom |}.

(** The comparator of [zones.sort]. *)
Definition zoneCompare (a b : Zone) : number :=
  let aNorth := north (bounds a) in
  let bNorth := north (bounds b) in
  if (Math_abs (aNorth - bNorth) >? hundredth)%num
  then (bNorth - aNorth)%num
  else (west (bounds a) - west (bounds b))%num.

(** [zones.forEach((zone, index) => { zone.id = `zone-${index}` })] *)
Definition reassignIds (zones : list Zone) : list Zone :=
  imap (λ index zone,
          {| id := zoneId index;
             poiIndices := poiIndices zone;
             bounds := bounds zone;
             center := center zone;
             zoom := zoom zone |}) zones.

Definition planZones (pois : list T) (config : option ZoneConfig) : list Zone :=
  if bool_decide (length pois = 0) then []
  else
    let mergedConfig := mergeConfig config in
    let clusters := clusterPOIs pois mergedConfig in
    let zones := imap (buildZone pois mergedConfig) clusters in
    let zones := Array_sort zoneCompare zones in
    reassignIds zones.

End Planner.

(** [zone.poiIndices.map((i) => pois[i])]; [None] is [undefined], the value
    of an array read past the end. *)
Definition getZonePOIs {T : Type} (pois : list T) (zone : Zone) : list (option T) :=
  map (λ i, pois !! i) (poiIndices zone).

(** One iteration of the loop of [calculateOverallBounds]. *)
Definition widenBounds (b : Bounds) (zone : Zone) : Bounds :=
  {| north := if (north (bounds zone) >? north b)%num then north (bounds zone) else north b;
     south := if (south (bounds zone) <? south b)%num then south (bounds zone) else south b;
     east := if (east (bounds zone) >? east b)%num then east (bounds zone) else east b;
     west := if (west (bounds zone) <? west b)%num then west (bounds zone) else west b |}.

(** [None] is [null]. *)
Definition calculateOverallBounds (zones : list Zone) : option Bounds :=
  if bool_decide (length zones = 0) then None
  else Some (foldl widenBounds
               {| north := NegInf; south := PosInf; east := NegInf; west := PosInf |}
               zones).

(** The scan that both bounding-box loops make over one coordinate: keep
    the running extreme, replace it when the next value beats it. *)
Definition scanBest (better : number → number → bool) (init : number)
    (l : list number) : number :=
  foldl (λ acc x, if better x acc then x else acc) init l.

(** A point as the plain coordinate pair [{ lat: p.lat, lng: p.lng }]. *)
Definition toCoordinate {T : Type} {poiLike : POILike T} (p : T) : Coordinate :=
  {| coord_lat := lat p; coord_lng := lng p |}.

(** The display order the zones are meant to have: of two zones, the one
    further north comes first, and of two zones of one row (norths within
    [0.01] of each other) the one further west comes first. *)
Definition display_ordered (zones : list Zone) : Prop :=
  ∀ i j A B, i < j → zones !! i = Some A → zones !! j = Some B →
    (north (bounds A) >? north (bounds B) + hundredth)%num = true
    ∨ ((Math_abs (north (bounds A) - north (bounds B)) <=? hundredth)%num = true
       ∧ (west (bounds A) <=? west (bounds B))%num = true).

(** Two zones are of one row. *)
Definition same_row (A B : Zone) : Prop :=
  (Math_abs (north (bounds A) - north (bounds B)) <=? hundredth)%num = true.

(** Being of one row is transitive among the zones. *)
Definition rows_transitive (zones : list Zone) : Prop :=
  ∀ A B C, A ∈ zones → B ∈ zones → C ∈ zones →
           same_row A B → same_row B C → same_row A C.

#[export] Instance same_row_dec (A B : Zone) : Decision (same_row A B).
Proof. unfold same_row. apply _. Defined.

(** [rows_transitive] is decided by running through the zones. *)
#[export] Instance rows_transitive_dec (zones : list Zone) : Decision (rows_transitive zones).
Proof.
  refine (cast_if (decide (Forall (λ A, Forall (λ B, Forall (λ C,
            same_row A B → same_row B C → same_row A C) zones) zones) zones))).
  - intros A B C HA HB HC.
    rewrite Forall_forall in f. specialize (f A HA).
    rewrite Forall_forall in f. specialize (f B HB).
    rewrite Forall_forall in f. exact (f C HC).
  - intros Hrows. apply n.
    apply Forall_forall; intros A HA. apply Forall_forall; intros B HB.
    apply Forall_forall; intros C HC. by apply Hrows.
Defined.

(** A number that is neither an infinity nor [NaN]. *)
Definition is_finite (a : number) : Prop := ∃ q, a = Fin q.


(* ====================================================================== *)
(** ** The race mutations: the bounding box of a race *)
(* ====================================================================== *)

Module Races.

(** [calculateBounds] of the race mutations: the four running extremes
    start at the infinities, and each point moves those it beats. *)
Definition calculateBounds {T : Type} {poiLike : POILike T} (pois : list T) : Bounds :=
  foldl (λ b poi,
           {| north := if (lat poi >? north b)%num then lat poi else north b;
              south := if (lat poi <? south b)%num then lat poi else south b;
              east := if (lng poi >? east b)%num then lng poi else east b;
              west := if (lng poi <? west b)%num then lng poi else west b |})
        {| north := NegInf; south := PosInf; east := NegInf; west := PosInf |}
        pois.

End Races.

(* ====================================================================== *)
(** ** The game timer *)
(* ====================================================================== *)

Module GameTimer.

(** Times are in milliseconds and whole, as [Date.now()] gives them; the
    limit is a whole number of minutes. *)
Definition endTime (startedAt timeLimitMinutes : Z) : Z :=
  (startedAt + timeLimitMinutes * 60 * 1000)%Z.

(** [updateTimer]: the time left that it stores, and whether it calls
    [onExpire]; [hasOnExpire] says whether the caller passed one. *)
Definition updateTimer (startedAt timeLimitMinutes now : Z) (hasOnExpire : bool) : Z * bool :=
  let remaining := Z.max 0 (endTime startedAt timeLimitMinutes - now) in
  (remaining, bool_decide (remaining = 0%Z) && hasOnExpire).

(** [Math.floor(timeLeft / 60000)] *)
Definition minutes (timeLeft : Z) : Z := (timeLeft / 60000)%Z.

(** [Math.floor((timeLeft % 60000) / 1000)] *)
Definition seconds (timeLeft : Z) : Z := (Z.rem timeLeft 60000 / 1000)%Z.

Definition isLow (timeLeft : Z) : bool := bool_decide (timeLeft < 5 * 60 * 1000)%Z.
Definition isCritical (timeLeft : Z) : bool := bool_decide (timeLeft < 60 * 1000)%Z.

End GameTimer.

(* ====================================================================== *)
(** ** Vocabulary of the statements *)
(* ====================================================================== *)

Section Vocabulary.
Context {math : MathLib} {T : Type} {poiLike : POILike T}.
Implicit Types (pois : list T) (config : RequiredZoneConfig).
Implicit Types (wc : list (list nat)).

(** The size of a cluster: at least the seed, at most the capacity. *)
Definition size_ok (maxP : Z) (c : list nat) : Prop :=
  1 ≤ length c ∧ (Z.of_nat (length c) ≤ Z.max 1 maxP)%Z.

(** The invariant of the seed loop. *)
Definition greedy_inv (maxP : Z) (indices : list nat) (st : ClusterState) : Prop :=
  NoDup (concat (st_clusters st))
  ∧ (∀ x, x ∈ concat (st_clusters st) ↔ x ∈ st_assigned st)
  ∧ (∀ x, x ∈ st_assigned st → x ∈ indices)
  ∧ Forall (size_ok maxP) (st_clusters st).

(** Distance between the centroids of clusters [i] and [j]. *)
Definition pairDistance pois wc (i j : nat) : number :=
  centerDistance pois (wc !!! i) (wc !!! j).

(** Cluster [j] is an eligible merge partner of cluster [i]: it is another
    cluster, the two together fit in a zone, and the centroids are no
    further apart than three times the cluster radius. *)
Definition eligible pois config wc (i j : nat) : Prop :=
  i ≠ j
  ∧ (Z.of_nat (length (wc !!! i)) + Z.of_nat (length (wc !!! j))
     ≤ r_maxPoisPerZone config)%Z
  ∧ (pairDistance pois wc i j <=? r_clusterRadiusMeters config * num_of_Z 3)%num = true.

(** The state of the inner loop after the first [m] values of [j]. *)
Definition bestAfter pois config wc (i m : nat) : option nat * number :=
  foldl (bestStep pois config wc i) (None, PosInf) (seq 0 m).

(** What the inner loop has found after the first [m] values of [j]: no
    partner yet and none eligible at a finite distance, or the first of the
    nearest eligible partners. *)
Definition best_inv pois config wc (i m : nat) (best : option nat * number) : Prop :=
  match best.1 with
  | None =>
      best.2 = PosInf
      ∧ ∀ k, k < m → eligible pois config wc i k →
             (pairDistance pois wc i k <? PosInf)%num = false
  | Some j =>
      j < m ∧ eligible pois config wc i j
      ∧ best.2 = pairDistance pois wc i j
      ∧ (pairDistance pois wc i j <? PosInf)%num = true
      ∧ (∀ k, k < m → eligible pois config wc i k →
              (pairDistance pois wc i k <? pairDistance pois wc i j)%num = false)
      ∧ (∀ k, k < j → eligible pois config wc i k →
              (pairDistance pois wc i j <? pairDistance pois wc i k)%num = true)
  end.

(** Cluster [i] has fewer than [minPoisPerZone] members. *)
Definition undersized config wc (i : nat) : Prop :=
  (Z.of_nat (length (wc !!! i)) < r_minPoisPerZone config)%Z.

(** A run of [while (changed)], as a relation of its own: [whileRun n wc r]
    says that the loop started on [wc] makes [n] passes over the clusters
    and leaves [r].  A pass that merges is followed by another one on the
    merged list; a pass that merges nothing is the last. *)
Inductive whileRun pois config : nat → list (list nat) → list (list nat) → Prop :=
  | whileRun_exit wc :
      mergePass pois config wc = None → whileRun pois config 1 wc wc
  | whileRun_again n wc merged r :
      mergePass pois config wc = Some merged →
      whileRun pois config n merged r →
      whileRun pois config (S n) wc r.

(** The coordinates of the members of a cluster, as [buildZone] takes
    them. *)
Definition memberCoordinates pois (indices : list nat) : list Coordinate :=
  (λ i, {| coord_lat := poiLat pois i; coord_lng := poiLng pois i |}) <$> indices.

(** A cluster as the seed loop makes it: the seed, then points within the
    radius of the seed, nearest first. *)
Definition seed_first pois (radius : number) (cluster : list nat) : Prop :=
  ∃ seed rest,
    cluster = seed :: rest
    ∧ Forall (λ i, (seedDistance pois seed i <=? radius)%num = true) rest
    ∧ ∀ a b i j, a < b → rest !! a = Some i → rest !! b = Some j →
                 (seedDistance pois seed j <? seedDistance pois seed i)%num = false.

End Vocabulary.

(** [r] is the extreme of [init] and the values of [l]. *)
Definition is_best (better : number → number → bool) (init : number)
    (l : list number) (r : number) : Prop :=
  r ≠ NaN ∧ (r = init ∨ r ∈ l) ∧ better init r = false
  ∧ ∀ x, x ∈ l → better x r = false.

(** [x] may stay before [y]: the comparator does not ask for a swap. *)
Definition sorts_before {A : Type} (comparefn : A → A → number) (x y : A) : Prop :=
  (comparefn x y >? num_zero)%num = false.



(* ====================================================================== *)
(** ** Sample runs *)
(* ====================================================================== *)

(** A [Math] for running the planner on sample inputs, exact where the
    planner's sample inputs need it: the first-order approximations at small
    angles ([sin x = x], [cos x = 1], [atan2(y, x) = y]) and the square root
    that is exact on squares of rationals (rounded down on the numerator and
    the denominator otherwise).  For two points on one meridian it makes
    [haversineDistance] the length of the arc between them, as it is. *)
Definition sqrtRational (a : number) : number :=
  match a with
  | Fin q =>
      if bool_decide (q < 0)%Qc then NaN
      else Fin (Q2Qc (Z.sqrt (Qnum q) # Pos.sqrt (Qden q)))
  | PosInf => PosInf
  | NegInf | NaN => NaN
  end.

Definition smallAngleMath : MathLib :=
  {| Math_sin := λ x, x;
     Math_cos := λ _, num_of_Z 1;
     Math_sqrt := sqrtRational;
     Math_atan2 := λ y _, y |}.

Definition sampleMapPlanner : MapPlanner :=
  {| calculateZoom := λ _ _, num_of_Z 15 |}.

Definition dec (n d : Z) : number :=
  Fin (Q2Qc (Qmake n (Z.to_pos d))).

Definition pt (la lo : number) : Coordinate := {| coord_lat := la; coord_lng := lo |}.

Definition cfg11 : option ZoneConfig :=
  Some {| minPoisPerZone := Some 1%Z; maxPoisPerZone := Some 1%Z;
          clusterRadiusMeters := None; mapSize := None |}.

(** Three points in a staircase: each is less than [0.01] degrees north of
    the one before and one degree further east, the third more than [0.01]
    north of the first. *)
Definition staircase : list Coordinate :=
  [ pt (num_of_Z 10) (num_of_Z 0);
    pt (dec 1281 128) (num_of_Z 1);
    pt (dec 641 64) (num_of_Z 2) ].

(** The bounds of the three zones of the staircase. *)
Definition stair (k : nat) : Bounds :=
  calculateBounds (memberCoordinates staircase [k]).

(** Two points a degree of latitude apart. *)
Definition twoRows : list Coordinate :=
  [ pt (num_of_Z 10) (num_of_Z 0); pt (num_of_Z 11) (num_of_Z 1) ].

(** A caller's record with more than the coordinates. *)
Record NamedPOI : Type := mkNamedPOI {
  poi_name : string;
  poi_lat : number;
  poi_lng : number;
}.

#[export] Instance NamedPOI_POILike : POILike NamedPOI :=
  {| lat := poi_lat; lng := poi_lng |}.



(** Three points on one meridian: the second a thousandth of a degree
    (some 111 m) north of the first, the third a twentieth of a degree (some
    5.5 km) north of it. *)
Definition meridian : list Coordinate :=
  [ pt (num_of_Z 10) (num_of_Z 0);
    pt (dec 10001 1000) (num_of_Z 0);
    pt (dec 1005 100) (num_of_Z 0) ].

(** Zones of exactly two points, default radius. *)
Definition cfg22 : RequiredZoneConfig :=
  {| r_minPoisPerZone := 2;
     r_maxPoisPerZone := 2;
     r_clusterRadiusMeters := num_of_Z 1000;
     r_mapSize := r_mapSize DEFAULT_CONFIG |}.

(** Two points on one meridian, some five kilometres apart. *)
Definition fiveKilometres : list Coordinate :=
  [ pt (num_of_Z 10) (num_of_Z 0); pt (dec 10045 1000) (num_of_Z 0) ].

(** Twelve points on one meridian, a hundred-thousandth of a degree (some
    1.1 m) from one to the next. *)
Definition twelvePoints : list Coordinate :=
  (λ k, pt (dec (1000000 + Z.of_nat k) 100000) (num_of_Z 0)) <$> seq 0 12.

(** Ten metres as an angle of latitude, in degrees. *)
Definition tenMetresOfLatitude : number :=
  (num_of_Z 1800 / (EARTH_RADIUS_METERS * Math_PI))%num.

(** Two points on one meridian, the second ten metres north of the first. *)
Definition tenMetresNorth : list Coordinate :=
  [ pt (dec 4365 100) (dec (-7938) 100);
    pt (dec 4365 100 + tenMetresOfLatitude)%num (dec (-7938) 100) ].


(** Another planner of zoom levels, and a configuration that differs from
    [cfg11] in the map size only. *)
Definition wideMapPlanner : MapPlanner :=
  {| calculateZoom := λ b size, (width size / num_of_Z 100)%num |}.

Definition cfg11_wide : option ZoneConfig :=
  Some {| minPoisPerZone := Some 1%Z; maxPoisPerZone := Some 1%Z;
          clusterRadiusMeters := None;
          mapSize := Some {| width := num_of_Z 1200; height := num_of_Z 800 |} |}.

(** A zone without its zoom level. *)
Definition withoutZoom (zone : Zone) : string * list nat * Bounds * Coordinate :=
  (id zone, poiIndices zone, bounds zone, center zone).

(* ====================================================================== *)
(** ** Facts about the order on numbers *)
(* ====================================================================== *)

Lemma num_ltb_irrefl a : (a <? a)%num = false.
Proof.
  destruct a; simpl; try done.
  apply bool_decide_eq_false, Qcle_not_lt, Qcle_refl.
Qed.

Lemma num_ltb_trans a b c :
  (a <? b)%num = true → (b <? c)%num = true → (a <? c)%num = true.
Proof.
  destruct a, b, c; simpl; try done.
  rewrite !bool_decide_eq_true. apply Qclt_trans.
Qed.

Lemma num_ltb_not_NaN_l a b : (a <? b)%num = true → a ≠ NaN.
Proof. by destruct a, b. Qed.

Lemma num_ltb_not_NaN_r a b : (a <? b)%num = true → b ≠ NaN.
Proof. by destruct a, b. Qed.

Lemma num_leb_not_NaN_l a b : (a <=? b)%num = true → a ≠ NaN.
Proof. by destruct a, b. Qed.

(** Two numbers that are not [NaN] and of which neither is below the other
    are the same number. *)
Lemma num_ltb_trichotomy a b :
  a ≠ NaN → b ≠ NaN → (a <? b)%num = false → (b <? a)%num = false → a = b.
Proof.
  destruct a as [x| | |], b as [y| | |]; simpl; try done.
  rewrite !bool_decide_eq_false. intros _ _ Hxy Hyx. f_equal.
  apply Qcle_antisym; by apply Qcnot_lt_le.
Qed.

Lemma num_ltb_false_leb a b :
  a ≠ NaN → b ≠ NaN → (a <? b)%num = false → (b <=? a)%num = true.
Proof.
  destruct a as [x| | |], b as [y| | |]; simpl; try done.
  rewrite bool_decide_eq_false, bool_decide_eq_true. intros _ _. apply Qcnot_lt_le.
Qed.

(* ====================================================================== *)
(** ** Facts about the sort *)
(* ====================================================================== *)

Section SortFacts.
Context {A : Type} (comparefn : A → A → number).

Lemma sort_insert_perm x l : sort_insert comparefn x l ≡ₚ x :: l.
Proof.
  induction l as [|y l IH]; simpl; [done|].
  case_match; [|done].
  rewrite IH. apply Permutation_swap.
Qed.

Lemma Array_sort_perm l : Array_sort comparefn l ≡ₚ l.
Proof.
  induction l as [|x l IH]; simpl; [done|].
  rewrite sort_insert_perm. by apply Permutation_skip.
Qed.

Lemma Array_sort_elem_of x l : x ∈ Array_sort comparefn l ↔ x ∈ l.
Proof. by rewrite Array_sort_perm. Qed.

End SortFacts.

(* ====================================================================== *)
(** ** The greedy stage partitions the indices *)
(* ====================================================================== *)

Section GreedyFacts.
Context {math : MathLib} {T : Type} {poiLike : POILike T}.
Implicit Types (pois : list T) (config : RequiredZoneConfig).
Implicit Types (assigned : gset nat) (cluster indices : list nat).

Lemma findCandidates_elem_of pois radius assigned seedIndex indices c d :
  (c, d) ∈ findCandidates pois radius assigned seedIndex indices →
  c ∈ indices ∧ (c ∉ assigned) ∧ d = seedDistance pois seedIndex c
  ∧ (d <=? radius)%num = true.
Proof.
  induction indices as [|k indices IH]; simpl; [by intros ?%elem_of_nil|].
  case_bool_decide as Hk.
  - intros Hin. destruct (IH Hin) as (?&?&?&?). set_solver.
  - destruct (seedDistance pois seedIndex k <=? radius)%num eqn:Hd.
    + intros [[= -> ->]|Hin]%elem_of_cons; [set_solver|].
      destruct (IH Hin) as (?&?&?&?). set_solver.
    + intros Hin. destruct (IH Hin) as (?&?&?&?). set_solver.
Qed.

Lemma findCandidates_fst_elem_of pois radius assigned seedIndex indices c :
  c ∈ (findCandidates pois radius assigned seedIndex indices).*1 →
  c ∈ indices ∧ c ∉ assigned.
Proof.
  intros ([c' d]&->&Hin)%list_elem_of_fmap.
  apply findCandidates_elem_of in Hin. naive_solver.
Qed.

Lemma findCandidates_NoDup pois radius assigned seedIndex indices :
  NoDup indices → NoDup (findCandidates pois radius assigned seedIndex indices).*1.
Proof.
  induction 1 as [|k indices Hk Hnd IH]; simpl; [constructor|].
  repeat case_match; try done.
  rewrite fmap_cons. constructor; [|done].
  intros []%findCandidates_fst_elem_of. done.
Qed.

(** What the capacity loop does: it takes a prefix of the candidates. *)
Lemma addCandidates_spec maxP candidates cluster assigned :
  ∃ taken,
    (taken `prefix_of` candidates.*1)
    ∧ (addCandidates maxP cluster assigned candidates).1 = cluster ++ taken
    ∧ (addCandidates maxP cluster assigned candidates).2 = list_to_set taken ∪ assigned
    ∧ (Z.of_nat (length (cluster ++ taken)) ≤ Z.max (Z.of_nat (length cluster)) maxP)%Z.
Proof.
  revert cluster assigned.
  induction candidates as [|[c d] candidates IH]; intros cluster assigned; simpl.
  - exists []. rewrite app_nil_r. split_and!; [done|done|set_solver|lia].
  - case_bool_decide as Hfull.
    + exists []. rewrite app_nil_r. split_and!; [apply prefix_nil|done|set_solver|lia].
    + destruct (IH (cluster ++ [c]) ({[c]} ∪ assigned)) as (taken&Hpre&Hcl&Has&Hlen).
      exists (c :: taken). rewrite Hcl, Has. split_and!.
      * by apply prefix_cons.
      * by rewrite <-app_assoc.
      * set_solver.
      * revert Hlen. rewrite <-app_assoc. simpl. rewrite !length_app. simpl. lia.
Qed.

Lemma greedy_inv_init maxP indices :
  greedy_inv maxP indices {| st_assigned := ∅; st_clusters := [] |}.
Proof. split_and!; simpl; [constructor|set_solver|set_solver|constructor]. Qed.

Lemma seedStep_inv pois config indices st seedIndex :
  NoDup indices → seedIndex ∈ indices →
  greedy_inv (r_maxPoisPerZone config) indices st →
  greedy_inv (r_maxPoisPerZone config) indices (seedStep pois config indices st seedIndex)
  ∧ seedIndex ∈ st_assigned (seedStep pois config indices st seedIndex)
  ∧ st_assigned st ⊆ st_assigned (seedStep pois config indices st seedIndex).
Proof.
  intros Hnd Hseed (Hcl&Hiff&Hsub&Hsz). unfold seedStep.
  case_bool_decide as Hin; [by split_and!|].
  set (assigned := {[seedIndex]} ∪ st_assigned st).
  set (candidates := findCandidates pois _ assigned seedIndex indices).
  set (sorted := Array_sort _ candidates).
  destruct (addCandidates_spec (r_maxPoisPerZone config) sorted [seedIndex] assigned)
    as (taken&Hpre&Hc&Ha&Hlen).
  destruct (addCandidates _ _ _ sorted) as [cluster assigned'] eqn:Hadd.
  simpl in Hc, Ha. subst cluster assigned'. simpl.
  assert (sorted.*1 ≡ₚ candidates.*1) as Hperm.
  { unfold sorted. by rewrite Array_sort_perm. }
  assert (∀ x, x ∈ taken → x ∈ indices ∧ x ∉ assigned) as Htaken.
  { intros x Hx. apply (findCandidates_fst_elem_of pois (r_clusterRadiusMeters config)
                          assigned seedIndex indices).
    fold candidates. rewrite <-Hperm.
    destruct Hpre as [k ->]. set_solver. }
  assert (NoDup taken) as Hndt.
  { assert (NoDup sorted.*1) as Hnds.
    { rewrite Hperm. by apply findCandidates_NoDup. }
    destruct Hpre as [k Hk]. rewrite Hk in Hnds. by apply NoDup_app in Hnds as (?&_&_). }
  split; [|split; set_solver]. split_and!; simpl.
  - rewrite concat_app. simpl. rewrite app_nil_r.
    apply NoDup_app. split_and!; [done| |].
    + intros x Hx%Hiff [->|Hx']%elem_of_cons; [done|].
      apply Htaken in Hx' as [_ Hx']. set_solver.
    + constructor; [|done]. intros Hx%Htaken. set_solver.
  - intros x. rewrite concat_app. simpl. rewrite app_nil_r.
    rewrite elem_of_app, Hiff. set_solver.
  - intros x. rewrite elem_of_union, elem_of_list_to_set.
    intros [Hx%Htaken|Hx]; [tauto|]. set_solver.
  - apply Forall_app. split; [done|]. constructor; [|constructor].
    split; [simpl; lia|]. simpl in Hlen |- *. lia.
Qed.

Lemma seedLoop_inv pois config indices todo st :
  NoDup indices → todo ⊆ indices →
  greedy_inv (r_maxPoisPerZone config) indices st →
  greedy_inv (r_maxPoisPerZone config) indices
    (foldl (seedStep pois config indices) st todo)
  ∧ (∀ x, x ∈ todo → x ∈ st_assigned (foldl (seedStep pois config indices) st todo))
  ∧ st_assigned st ⊆ st_assigned (foldl (seedStep pois config indices) st todo).
Proof.
  intros Hnd. revert st.
  induction todo as [|seedIndex todo IH]; intros st Hsub Hinv; simpl.
  - split_and!; [done|set_solver|done].
  - destruct (seedStep_inv pois config indices st seedIndex) as (Hinv'&Hs&Hmono);
      [done|set_solver|done|].
    destruct (IH (seedStep pois config indices st seedIndex)) as (?&?&?);
      [set_solver|done|].
    split_and!; [done| |set_solver].
    intros x [->|Hx]%elem_of_cons; set_solver.
Qed.

Lemma sortedIndices_perm pois : sortedIndices pois ≡ₚ seq 0 (length pois).
Proof. apply Array_sort_perm. Qed.

Lemma greedyClusters_inv pois config :
  greedy_inv (r_maxPoisPerZone config) (sortedIndices pois)
    (foldl (seedStep pois config (sortedIndices pois))
           {| st_assigned := ∅; st_clusters := [] |} (sortedIndices pois))
  ∧ (∀ x, x ∈ sortedIndices pois →
          x ∈ st_assigned (foldl (seedStep pois config (sortedIndices pois))
                             {| st_assigned := ∅; st_clusters := [] |}
                             (sortedIndices pois))).
Proof.
  destruct (seedLoop_inv pois config (sortedIndices pois) (sortedIndices pois)
              {| st_assigned := ∅; st_clusters := [] |}) as (?&?&?);
    [|done|apply greedy_inv_init|done].
  rewrite sortedIndices_perm. apply NoDup_seq.
Qed.

Lemma greedyClusters_perm pois config :
  concat (greedyClusters pois config) ≡ₚ seq 0 (length pois).
Proof.
  destruct (greedyClusters_inv pois config) as ((Hnd&Hiff&Hsub&_)&Hall).
  unfold greedyClusters. rewrite <-(sortedIndices_perm pois).
  apply NoDup_Permutation; [done| |].
  - rewrite sortedIndices_perm. apply NoDup_seq.
  - intros x. rewrite Hiff. split; [apply Hsub|apply Hall].
Qed.

Lemma greedyClusters_sizes pois config :
  Forall (λ c, 1 ≤ length c ∧ (Z.of_nat (length c) ≤ Z.max 1 (r_maxPoisPerZone config))%Z)
         (greedyClusters pois config).
Proof. by destruct (greedyClusters_inv pois config) as ((_&_&_&?)&_). Qed.

End GreedyFacts.


(* ====================================================================== *)
(** ** The rebalancing stage *)
(* ====================================================================== *)

Lemma concat_perm {A : Type} (l k : list (list A)) : l ≡ₚ k → concat l ≡ₚ concat k.
Proof.
  induction 1 as [|c l k _ IH|c c' l|l k m _ IH1 _ IH2]; simpl.
  - done.
  - by rewrite IH.
  - rewrite !app_assoc. f_equiv. apply Permutation_app_comm.
  - by rewrite IH1.
Qed.

Lemma elem_of_concat {A : Type} (x : A) (ls : list (list A)) :
  x ∈ concat ls ↔ ∃ l, x ∈ l ∧ l ∈ ls.
Proof.
  induction ls as [|l ls IH]; simpl.
  - split; [by intros ?%elem_of_nil|]. by intros (l&_&?%elem_of_nil).
  - rewrite elem_of_app, IH. split.
    + intros [?|(l'&?&?)]; [exists l|exists l']; split; try done; by constructor.
    + intros (l'&?&[->|?]%elem_of_cons); [by left|right; eauto].
Qed.

Lemma NoDup_concat_lookup {A : Type} (ls : list (list A)) k k' c c' x :
  NoDup (concat ls) → ls !! k = Some c → ls !! k' = Some c' → x ∈ c → x ∈ c' → k = k'.
Proof.
  revert k k'. induction ls as [|l ls IH]; intros k k'; [done|].
  simpl. intros (Hnd1&Hdisj&Hnd2)%NoDup_app Hk Hk' Hc Hc'.
  destruct k as [|k], k' as [|k']; simpl in *; [done| | |f_equal; by eapply IH].
  - injection Hk as ->. exfalso. apply (Hdisj x Hc), elem_of_concat.
    exists c'. split; [done|]. by eapply list_elem_of_lookup_2.
  - injection Hk' as ->. exfalso. apply (Hdisj x Hc'), elem_of_concat.
    exists c. split; [done|]. by eapply list_elem_of_lookup_2.
Qed.

Lemma num_ltb_leb_trans a b c :
  (a <? b)%num = true → (c <? b)%num = false → c ≠ NaN → (a <? c)%num = true.
Proof.
  destruct a as [x| | |], b as [y| | |], c as [z| | |]; simpl; try done.
  rewrite !bool_decide_eq_true, bool_decide_eq_false.
  intros Hxy Hzy%Qcnot_lt_le _. by eapply Qclt_le_trans.
Qed.

Section MergeFacts.
Context {math : MathLib} {T : Type} {poiLike : POILike T}.
Implicit Types (pois : list T) (config : RequiredZoneConfig).
Implicit Types (wc : list (list nat)).

Lemma mergeInto_length wc i j :
  j < length wc → S (length (mergeInto wc i j)) = length wc.
Proof.
  intros Hj. unfold mergeInto. rewrite length_delete.
  - rewrite length_insert. lia.
  - apply lookup_lt_is_Some. by rewrite length_insert.
Qed.

Lemma mergeInto_perm wc i j :
  i ≠ j → i < length wc → j < length wc →
  concat (mergeInto wc i j) ≡ₚ concat wc.
Proof.
  intros Hij Hi Hj. unfold mergeInto.
  set (a := wc !!! i). set (b := wc !!! j).
  set (wc' := <[i:=a ++ b]> wc).
  assert (wc' !! j = Some b) as Hj'.
  { unfold wc'. rewrite list_lookup_insert_ne by done.
    by apply list_lookup_lookup_total_lt. }
  assert (wc' !! i = Some (a ++ b)) as Hi'.
  { unfold wc'. by apply list_lookup_insert_eq. }
  assert (delete i wc' = delete i wc) as Hdel.
  { unfold wc'. apply list_eq. intros k.
    destruct (decide (k < i)).
    - rewrite !list_lookup_delete_lt by done. rewrite list_lookup_insert_ne by lia. done.
    - rewrite !list_lookup_delete_ge by lia. rewrite list_lookup_insert_ne by lia. done. }
  apply (Permutation_app_inv_l b).
  rewrite <-(concat_perm _ _ (delete_Permutation wc' j b Hj')).
  rewrite (concat_perm _ _ (delete_Permutation wc' i (a ++ b) Hi')).
  rewrite Hdel. simpl.
  rewrite (concat_perm _ _ (delete_Permutation wc i a (list_lookup_lookup_total_lt _ _ Hi))).
  simpl. solve_Permutation.
Qed.

Lemma bestAfter_S pois config wc i m :
  bestAfter pois config wc i (S m)
  = bestStep pois config wc i (bestAfter pois config wc i m) m.
Proof. unfold bestAfter. by rewrite seq_S, foldl_snoc. Qed.

Lemma bestAfter_inv pois config wc i m :
  best_inv pois config wc i m (bestAfter pois config wc i m).
Proof.
  induction m as [|m IH].
  - split; [done|]. intros k Hk. lia.
  - rewrite bestAfter_S. destruct (bestAfter pois config wc i m) as [bj bd].
    unfold best_inv in IH. simpl in IH. unfold best_inv, bestStep. fold (pairDistance pois wc i m).
    assert (∀ k, k < S m → k < m ∨ k = m) as Hcase by lia.
    case_bool_decide as Him.
    { (* j is i itself *)
      destruct bj as [j|]; simpl in *.
      - destruct IH as (?&?&?&?&Hmin&?). split_and!; [lia|done..| |done].
        intros k [?| ->]%Hcase He; [by apply Hmin|]. by destruct He.
      - destruct IH as (?&Hmin). split; [done|].
        intros k [?| ->]%Hcase He; [by apply Hmin|]. by destruct He. }
    case_bool_decide as Hsize.
    { (* the two together are too many *)
      destruct bj as [j|]; simpl in *.
      - destruct IH as (?&?&?&?&Hmin&?). split_and!; [lia|done..| |done].
        intros k [?| ->]%Hcase He; [by apply Hmin|]. destruct He as (_&?&_). lia.
      - destruct IH as (?&Hmin). split; [done|].
        intros k [?| ->]%Hcase He; [by apply Hmin|]. destruct He as (_&?&_). lia. }
    simpl.
    destruct (pairDistance pois wc i m <? bd)%num eqn:Hlt; simpl;
      [destruct (pairDistance pois wc i m <=? _)%num eqn:Hle; simpl|].
    + (* a closer eligible cluster: the new best *)
      assert (eligible pois config wc i m) as Hel by (split_and!; [done|lia|done]).
      destruct bj as [j|]; simpl in *.
      * destruct IH as (Hj&?&->&Hfin&Hmin&Hfirst). split_and!; [lia|done|done| | |].
        -- by eapply num_ltb_trans.
        -- intros k [Hk| ->]%Hcase He; [|apply num_ltb_irrefl].
           destruct (pairDistance pois wc i k <? pairDistance pois wc i m)%num eqn:Hkm;
             [|done].
           rewrite <-(Hmin k Hk He). symmetry. by eapply num_ltb_trans.
        -- intros k Hk He. eapply num_ltb_leb_trans; [done|by apply Hmin|].
           destruct He as (_&_&He). by eapply num_leb_not_NaN_l.
      * destruct IH as (->&Hmin). split_and!; [lia|done|done|done| |].
        -- intros k [Hk| ->]%Hcase He; [|apply num_ltb_irrefl].
           destruct (pairDistance pois wc i k <? pairDistance pois wc i m)%num eqn:Hkm;
             [|done].
           rewrite <-(Hmin k Hk He). symmetry. by eapply num_ltb_trans.
        -- intros k Hk He. eapply num_ltb_leb_trans; [done|by apply Hmin|].
           destruct He as (_&_&He). by eapply num_leb_not_NaN_l.
    + (* closer, but beyond the merge distance *)
      destruct bj as [j|]; simpl in *.
      * destruct IH as (?&?&?&?&Hmin&?). split_and!; [lia|done..| |done].
        intros k [?| ->]%Hcase He; [by apply Hmin|]. destruct He as (_&_&He). congruence.
      * destruct IH as (?&Hmin). split; [done|].
        intros k [?| ->]%Hcase He; [by apply Hmin|]. destruct He as (_&_&He). congruence.
    + (* not closer than the best so far *)
      destruct bj as [j|]; simpl in *.
      * destruct IH as (?&?&->&?&Hmin&?). split_and!; [lia|done..| |done].
        intros k [?| ->]%Hcase He; [by apply Hmin|done].
      * destruct IH as (->&Hmin). split; [done|].
        intros k [?| ->]%Hcase He; [by apply Hmin|done].
Qed.

Lemma findBestMerge_inv pois config wc i :
  best_inv pois config wc i (length wc) (findBestMerge pois config wc i).
Proof. apply bestAfter_inv. Qed.

Lemma mergeScan_Some pois config wc todo merged :
  mergeScan pois config wc todo = Some merged →
  ∃ pre i post j,
    todo = pre ++ i :: post
    ∧ undersized config wc i
    ∧ (findBestMerge pois config wc i).1 = Some j
    ∧ merged = mergeInto wc i j
    ∧ ∀ i', i' ∈ pre → undersized config wc i' →
            (findBestMerge pois config wc i').1 = None.
Proof.
  induction todo as [|i todo IH]; simpl; [done|].
  case_bool_decide as Hmin.
  - intros (pre&i0&post&j&->&?&?&?&Hpre)%IH.
    exists (i :: pre), i0, post, j. split_and!; [done..|].
    intros i' [->|?]%elem_of_cons Hu; [|by apply Hpre].
    unfold undersized in Hu. lia.
  - destruct (findBestMerge pois config wc i).1 as [j|] eqn:Hbest.
    + intros [= <-]. exists [], i, todo, j. split_and!; [done| |done|done|].
      * unfold undersized. lia.
      * by intros i' ?%elem_of_nil.
    + intros (pre&i0&post&j&->&?&?&?&Hpre)%IH.
      exists (i :: pre), i0, post, j. split_and!; [done..|].
      intros i' [->|?]%elem_of_cons Hu; [done|by apply Hpre].
Qed.

Lemma mergeScan_None pois config wc todo :
  mergeScan pois config wc todo = None ↔
  ∀ i, i ∈ todo → undersized config wc i → (findBestMerge pois config wc i).1 = None.
Proof.
  induction todo as [|i todo IH]; simpl.
  - split; [by intros _ i ?%elem_of_nil|done].
  - case_bool_decide as Hmin.
    + rewrite IH. split.
      * intros Hall i' [->|?]%elem_of_cons Hu; [|by apply Hall].
        unfold undersized in Hu. lia.
      * intros Hall i' ?. apply Hall. by right.
    + destruct (findBestMerge pois config wc i).1 as [j|] eqn:Hbest.
      * split; [done|]. intros Hall.
        assert (Some j = None) as Habs; [|done].
        rewrite <-Hbest. apply Hall; [by left|]. unfold undersized. lia.
      * rewrite IH. split.
        -- intros Hall i' [->|?]%elem_of_cons Hu; [done|by apply Hall].
        -- intros Hall i' ?. apply Hall. by right.
Qed.

Lemma seq_split_prefix n pre i post : seq 0 n = pre ++ i :: post → pre = seq 0 i ∧ i < n.
Proof.
  intros Heq.
  assert (seq 0 n !! length pre = Some i) as Hi.
  { rewrite Heq. by rewrite list_lookup_middle. }
  apply lookup_seq in Hi as [Hi Hlt]. simpl in Hi. split; [|lia].
  rewrite <-(take_app_length pre (i :: post)), <-Heq, take_seq.
  f_equal. lia.
Qed.

(** What a pass that merges does. *)
Lemma mergePass_Some pois config wc merged :
  mergePass pois config wc = Some merged →
  ∃ i j,
    i < length wc ∧ j < length wc
    ∧ undersized config wc i
    ∧ eligible pois config wc i j
    ∧ (∀ k, k < length wc → eligible pois config wc i k →
            (pairDistance pois wc i j <=? pairDistance pois wc i k)%num = true)
    ∧ (∀ i', i' < i → undersized config wc i' →
             (findBestMerge pois config wc i').1 = None)
    ∧ merged = mergeInto wc i j.
Proof.
  unfold mergePass. intros (pre&i&post&j&Hseq&Hu&Hbest&->&Hpre)%mergeScan_Some.
  apply seq_split_prefix in Hseq as [-> Hi].
  pose proof (findBestMerge_inv pois config wc i) as Hinv.
  unfold best_inv in Hinv. rewrite Hbest in Hinv.
  destruct Hinv as (Hj&Hel&_&Hfin&Hmin&_).
  exists i, j. split_and!; [done..| | |done].
  - intros k Hk Hek. apply num_ltb_false_leb; [| |by apply Hmin].
    + destruct Hek as (_&_&Hd). by eapply num_leb_not_NaN_l.
    + by eapply num_ltb_not_NaN_l.
  - intros i' Hi' Hu'. apply Hpre; [|done]. apply elem_of_seq. lia.
Qed.

(** A pass merges nothing exactly when no undersized cluster has a partner
    the inner loop accepts. *)
Lemma mergePass_None pois config wc :
  mergePass pois config wc = None ↔
  ∀ i, i < length wc → undersized config wc i →
       (findBestMerge pois config wc i).1 = None.
Proof.
  unfold mergePass. rewrite mergeScan_None. split.
  - intros Hall i Hi. apply Hall, elem_of_seq. lia.
  - intros Hall i Hi%elem_of_seq. apply Hall. lia.
Qed.

Lemma mergePass_length pois config wc merged :
  mergePass pois config wc = Some merged → S (length merged) = length wc.
Proof.
  intros (i&j&_&Hj&_&_&_&_&->)%mergePass_Some. by apply mergeInto_length.
Qed.

Lemma mergeWhile_step pois config wc :
  mergeWhile pois config wc =
  match mergePass pois config wc with
  | Some merged => mergeWhile pois config merged
  | None => wc
  end.
Proof.
  rewrite mergeWhile_equation_1.
  destruct (inspect (mergePass pois config wc)) as [[merged|] Heq];
    simpl; by rewrite Heq.
Qed.

(** Induction along the iterations of the while loop. *)
Lemma mergeWhile_loop_ind pois config (P : list (list nat) → list (list nat) → Prop) :
  (∀ wc, mergePass pois config wc = None → P wc wc) →
  (∀ wc merged r,
      mergePass pois config wc = Some merged → P merged r → P wc r) →
  ∀ wc, P wc (mergeWhile pois config wc).
Proof.
  intros Hstop Hstep wc.
  remember (length wc) as n eqn:Hn. revert wc Hn.
  induction (lt_wf n) as [n _ IH]. intros wc ->.
  rewrite mergeWhile_step.
  destruct (mergePass pois config wc) as [merged|] eqn:Hpass; [|by apply Hstop].
  eapply Hstep; [done|]. eapply IH; [|done].
  apply mergePass_length in Hpass. lia.
Qed.

End MergeFacts.


(* ====================================================================== *)
(** ** The while loop: termination and what a merge does *)
(* ====================================================================== *)

Section WhileFacts.
Context {math : MathLib} {T : Type} {poiLike : POILike T}.
Implicit Types (pois : list T) (config : RequiredZoneConfig).
Implicit Types (wc : list (list nat)).

Lemma whileRun_mergeWhile pois config wc :
  ∃ passes, passes ≤ S (length wc)
            ∧ whileRun pois config passes wc (mergeWhile pois config wc).
Proof.
  apply (mergeWhile_loop_ind pois config
           (λ wc r, ∃ passes, passes ≤ S (length wc) ∧ whileRun pois config passes wc r)).
  - intros wc0 Hnone. exists 1. split; [lia|by constructor].
  - intros wc0 merged r Hpass (n&Hn&Hrun). exists (S n).
    apply mergePass_length in Hpass as Hlen. split; [lia|]. by econstructor.
Qed.

Lemma whileRun_functional pois config n wc r :
  whileRun pois config n wc r → r = mergeWhile pois config wc.
Proof.
  induction 1 as [wc Hnone|n wc merged r Hpass _ IH];
    rewrite (mergeWhile_step pois config wc).
  - by rewrite Hnone.
  - by rewrite Hpass.
Qed.

(** C7.  The rebalancing loop terminates on every input.  A pass that
    merges leaves strictly fewer clusters (exactly one fewer); a pass that
    merges nothing ends the loop at once, with the clusters unchanged; so
    from any cluster list the loop stops after at most one pass more than
    there are clusters, and [mergeSmallClusters] returns what that run
    leaves (or its argument, when there is at most one cluster). *)
Theorem mergeSmallClusters_terminates pois config wc :
  (∀ merged, mergePass pois config wc = Some merged →
             length merged < length wc ∧ S (length merged) = length wc)
  ∧ (mergePass pois config wc = None → whileRun pois config 1 wc wc)
  ∧ ∃ passes r,
      passes ≤ S (length wc)
      ∧ whileRun pois config passes wc r
      ∧ mergePass pois config r = None
      ∧ (∀ passes' r', whileRun pois config passes' wc r' → r' = r)
      ∧ mergeSmallClusters wc pois config = (if bool_decide (length wc ≤ 1) then wc else r).
Proof.
  split_and!.
  - intros merged Hlen%mergePass_length. lia.
  - by constructor.
  - destruct (whileRun_mergeWhile pois config wc) as (passes&Hle&Hrun).
    exists passes, (mergeWhile pois config wc). split_and!; [done|done| | |done].
    + clear. apply (mergeWhile_loop_ind pois config
                      (λ _ r, mergePass pois config r = None)); done.
    + intros passes' r' Hrun'. by eapply whileRun_functional.
Qed.


End WhileFacts.

(* ====================================================================== *)
(** ** From clusters to zones *)
(* ====================================================================== *)

Section ZoneFacts.
Context {math : MathLib} {mapPlanner : MapPlanner} {T : Type} {poiLike : POILike T}.
Implicit Types (pois : list T) (config : RequiredZoneConfig).
Implicit Types (wc : list (list nat)).

Lemma mergeWhile_perm pois config wc :
  concat (mergeWhile pois config wc) ≡ₚ concat wc.
Proof.
  apply (mergeWhile_loop_ind pois config (λ wc r, concat r ≡ₚ concat wc)); [done|].
  intros wc0 merged r (i&j&Hi&Hj&_&(Hij&_)&_&_&->)%mergePass_Some ->.
  by apply mergeInto_perm.
Qed.

Lemma mergeSmallClusters_perm pois config wc :
  concat (mergeSmallClusters wc pois config) ≡ₚ concat wc.
Proof. unfold mergeSmallClusters. case_bool_decide; [done|apply mergeWhile_perm]. Qed.

Lemma clusterPOIs_perm pois config :
  concat (clusterPOIs pois config) ≡ₚ seq 0 (length pois).
Proof.
  unfold clusterPOIs. case_bool_decide as Hlen; [by rewrite Hlen|].
  rewrite mergeSmallClusters_perm. apply greedyClusters_perm.
Qed.

(** Every index the planner hands out is a position of the input. *)
Lemma clusterPOIs_in_range pois config c i :
  c ∈ clusterPOIs pois config → i ∈ c → i < length pois.
Proof.
  intros Hc Hi.
  assert (i ∈ seq 0 (length pois)) as Hin; [|apply elem_of_seq in Hin; lia].
  rewrite <-(clusterPOIs_perm pois config). apply elem_of_concat. eauto.
Qed.

Lemma mergeWhile_sizes pois config wc :
  Forall (size_ok (r_maxPoisPerZone config)) wc →
  Forall (size_ok (r_maxPoisPerZone config)) (mergeWhile pois config wc).
Proof.
  apply (mergeWhile_loop_ind pois config
           (λ wc r, Forall (size_ok (r_maxPoisPerZone config)) wc →
                    Forall (size_ok (r_maxPoisPerZone config)) r)); [done|].
  intros wc0 merged r (i&j&Hi&Hj&_&(Hij&Hsize&_)&_&_&->)%mergePass_Some IH Hall.
  apply IH. unfold mergeInto. apply Forall_delete, Forall_insert; [done|].
  assert (size_ok (r_maxPoisPerZone config) (wc0 !!! i)) as [Hi1 _].
  { eapply Forall_lookup_1; [done|]. by apply list_lookup_lookup_total_lt. }
  split; rewrite length_app; lia.
Qed.

Lemma clusterPOIs_sizes pois config :
  Forall (size_ok (r_maxPoisPerZone config)) (clusterPOIs pois config).
Proof.
  unfold clusterPOIs. case_bool_decide; [constructor|].
  unfold mergeSmallClusters.
  case_bool_decide; [|apply mergeWhile_sizes]; apply greedyClusters_sizes.
Qed.

Lemma buildZone_poiIndices pois config wc :
  poiIndices <$> imap (buildZone pois config) wc = wc.
Proof.
  rewrite fmap_imap. unfold compose. simpl.
  change (imap (const (λ c : list nat, c)) wc = wc).
  rewrite imap_const. apply list_fmap_id.
Qed.

Lemma reassignIds_perm_fields {B : Type} (f : Zone → B) zones :
  (∀ index zone, f {| id := zoneId index; poiIndices := poiIndices zone;
                      bounds := bounds zone; center := center zone;
                      zoom := zoom zone |} = f zone) →
  f <$> reassignIds zones = f <$> zones.
Proof.
  intros Hf. unfold reassignIds. rewrite fmap_imap. unfold compose.
  rewrite (imap_ext _ (const f)) by (intros; apply Hf). by rewrite imap_const.
Qed.

(** The index lists of the zones are the clusters, in display order. *)
Lemma planZones_poiIndices pois (config : option ZoneConfig) :
  poiIndices <$> planZones pois config
  ≡ₚ clusterPOIs pois (mergeConfig config).
Proof.
  unfold planZones. case_bool_decide as Hlen.
  - unfold clusterPOIs. by rewrite bool_decide_eq_true_2.
  - rewrite (reassignIds_perm_fields poiIndices) by done.
    rewrite Array_sort_perm. by rewrite buildZone_poiIndices.
Qed.

Lemma planZones_concat pois (config : option ZoneConfig) :
  concat (poiIndices <$> planZones pois config) ≡ₚ seq 0 (length pois).
Proof.
  rewrite (concat_perm _ _ (planZones_poiIndices pois config)).
  apply clusterPOIs_perm.
Qed.

(** C1.  Partition property: the indices of the zones of [planZones],
    taken together, are exactly the positions [0 .. n-1] of the input, as
    a set, and no index occurs twice, neither in two zones nor within
    one.  It holds for every input, the empty one included, and for every
    configuration. *)
Theorem planZones_partition pois (config : option ZoneConfig) :
  (list_to_set (concat (poiIndices <$> planZones pois config)) : gset nat)
    = set_seq 0 (length pois)
  ∧ NoDup (concat (poiIndices <$> planZones pois config))
  ∧ ∀ i, i < length pois →
         ∃ zone, zone ∈ planZones pois config ∧ i ∈ poiIndices zone
                 ∧ ∀ zone', zone' ∈ planZones pois config →
                            i ∈ poiIndices zone' → poiIndices zone' = poiIndices zone.
Proof.
  pose proof (planZones_concat pois config) as Hperm.
  assert (NoDup (concat (poiIndices <$> planZones pois config))) as Hnd.
  { rewrite Hperm. apply NoDup_seq. }
  split_and!; [|done|].
  - apply set_eq. intros i. rewrite elem_of_list_to_set, Hperm, elem_of_set_seq, elem_of_seq.
    lia.
  - intros i Hi.
    assert (i ∈ concat (poiIndices <$> planZones pois config)) as Hin.
    { rewrite Hperm. apply elem_of_seq. lia. }
    apply elem_of_concat in Hin as (c&Hic&(zone&->&Hz)%list_elem_of_fmap).
    exists zone. split_and!; [done..|].
    intros zone' Hz' Hi'.
    apply list_elem_of_lookup in Hz as [k Hk].
    apply list_elem_of_lookup in Hz' as [k' Hk'].
    destruct (decide (k = k')) as [->|Hne]; [congruence|].
    exfalso. apply Hne.
    apply (NoDup_concat_lookup (poiIndices <$> planZones pois config) k k'
             (poiIndices zone) (poiIndices zone') i); [done| | |done..].
    + by rewrite list_lookup_fmap, Hk.
    + by rewrite list_lookup_fmap, Hk'.
Qed.

End ZoneFacts.


(** The size bound on the merged configuration of a call. *)
Lemma planZones_sizes {math : MathLib} {mapPlanner : MapPlanner} {T : Type} {poiLike : POILike T}
    (pois : list T) (config : option ZoneConfig) :
  Forall (λ zone, size_ok (r_maxPoisPerZone (mergeConfig config)) (poiIndices zone))
         (planZones pois config).
Proof.
  apply (proj1 (Forall_fmap poiIndices (size_ok (r_maxPoisPerZone (mergeConfig config))) _)).
  rewrite (planZones_poiIndices pois config). apply clusterPOIs_sizes.
Qed.




(* ====================================================================== *)
(** ** Bounding boxes *)
(* ====================================================================== *)

Section ScanFacts.
Variable better : number → number → bool.
Hypothesis better_irrefl : ∀ a, better a a = false.
Hypothesis better_trans : ∀ a b c, better a b = true → better b c = true → better a c = true.
Hypothesis better_valid : ∀ a b, better a b = true → a ≠ NaN.
Hypothesis better_total :
  ∀ a b, a ≠ NaN → b ≠ NaN → better a b = false → better b a = false → a = b.

Lemma better_neg_trans a b c :
  b ≠ NaN → c ≠ NaN → better a b = false → better b c = false → better a c = false.
Proof using better_trans better_valid better_total.
  intros Hb Hc Hab Hbc. destruct (better a c) eqn:Hac; [|done].
  destruct (better b a) eqn:Hba.
  - by rewrite (better_trans b a c) in Hbc.
  - assert (a = b) as -> by (apply better_total; eauto). congruence.
Qed.

Lemma scanBest_is_best init l : init ≠ NaN → is_best better init l (scanBest better init l).
Proof using All.
  revert init. induction l as [|x l IH]; intros init Hinit; simpl.
  - split_and!; [done|by left|apply better_irrefl|by intros x ?%elem_of_nil].
  - destruct (better x init) eqn:Hx.
    + destruct (IH x) as (Hr&Hin&Hxr&Hall); [by eapply better_valid|].
      split_and!; [done| |..].
      * right. destruct Hin as [->|?]; [by left|by right].
      * destruct (better init (scanBest better x l)) eqn:Hir; [|done].
        by rewrite (better_trans x init _) in Hxr.
      * intros y [->|?]%elem_of_cons; [done|by apply Hall].
    + destruct (IH init Hinit) as (Hr&Hin&Hir&Hall).
      split_and!; [done| |done|].
      * destruct Hin as [->|?]; [by left|right; by right].
      * intros y [->|?]%elem_of_cons; [|by apply Hall].
        by apply (better_neg_trans _ init).
Qed.

Lemma is_best_unique init l l' r r' :
  (∀ x, x ∈ l → x ∈ l') → (∀ x, x ∈ l' → x ∈ l) →
  is_best better init l r → is_best better init l' r' → r = r'.
Proof using better_total.
  intros Hsub Hsub' (Hr&Hin&Hir&Hall) (Hr'&Hin'&Hir'&Hall').
  apply better_total; [done|done| |].
  - destruct Hin as [->|?]; [done|]. by apply Hall', Hsub.
  - destruct Hin' as [->|?]; [done|]. by apply Hall, Hsub'.
Qed.

Lemma scanBest_perm init l l' :
  init ≠ NaN → l ≡ₚ l' → scanBest better init l = scanBest better init l'.
Proof using All.
  intros Hinit Hperm.
  apply (is_best_unique init l l'); [| |by apply scanBest_is_best..].
  - intros x. by rewrite Hperm.
  - intros x. by rewrite Hperm.
Qed.

(** The extreme of the extremes of the parts is the extreme of the whole. *)
Lemma scanBest_concat init (ls : list (list number)) :
  init ≠ NaN →
  scanBest better init (scanBest better init <$> ls) = scanBest better init (concat ls).
Proof using All.
  intros Hinit.
  apply (is_best_unique init (concat ls) (concat ls)); [done|done| |by apply scanBest_is_best].
  destruct (scanBest_is_best init (scanBest better init <$> ls) Hinit)
    as (Hr&Hin&Hir&Hall).
  split_and!; [done| |done|].
  - destruct Hin as [?|(l&Heq&Hl)%list_elem_of_fmap]; [by left|].
    destruct (scanBest_is_best init l Hinit) as (_&[Hl'|Hl']&_); rewrite Heq.
    + by left.
    + right. apply elem_of_concat. eauto.
  - intros x (l&Hx&Hl)%elem_of_concat.
    destruct (scanBest_is_best init l Hinit) as (Hm&_&_&Hallm).
    apply (better_neg_trans _ (scanBest better init l)); [done|done|by apply Hallm|].
    apply Hall. by apply list_elem_of_fmap_2.
Qed.

End ScanFacts.

Lemma scanBest_gtb_perm l l' :
  l ≡ₚ l' → scanBest num_gtb NegInf l = scanBest num_gtb NegInf l'.
Proof.
  apply scanBest_perm; unfold num_gtb; try done.
  - apply num_ltb_irrefl.
  - intros a b c ??. by eapply num_ltb_trans.
  - intros a b. apply num_ltb_not_NaN_r.
  - intros a b ????. by apply num_ltb_trichotomy.
Qed.

Lemma scanBest_ltb_perm l l' :
  l ≡ₚ l' → scanBest num_ltb PosInf l = scanBest num_ltb PosInf l'.
Proof.
  apply scanBest_perm; try done.
  - apply num_ltb_irrefl.
  - apply num_ltb_trans.
  - apply num_ltb_not_NaN_l.
  - apply num_ltb_trichotomy.
Qed.

Lemma scanBest_gtb_concat ls :
  scanBest num_gtb NegInf (scanBest num_gtb NegInf <$> ls)
  = scanBest num_gtb NegInf (concat ls).
Proof.
  apply scanBest_concat; unfold num_gtb; try done.
  - apply num_ltb_irrefl.
  - intros a b c ??. by eapply num_ltb_trans.
  - intros a b. apply num_ltb_not_NaN_r.
  - intros a b ????. by apply num_ltb_trichotomy.
Qed.

Lemma scanBest_ltb_concat ls :
  scanBest num_ltb PosInf (scanBest num_ltb PosInf <$> ls)
  = scanBest num_ltb PosInf (concat ls).
Proof.
  apply scanBest_concat; try done.
  - apply num_ltb_irrefl.
  - apply num_ltb_trans.
  - apply num_ltb_not_NaN_l.
  - apply num_ltb_trichotomy.
Qed.


Lemma calculateBounds_from (b : Bounds) (pois : list Coordinate) :
  foldl (λ b poi,
           {| north := if (coord_lat poi >? north b)%num then coord_lat poi else north b;
              south := if (coord_lat poi <? south b)%num then coord_lat poi else south b;
              east := if (coord_lng poi >? east b)%num then coord_lng poi else east b;
              west := if (coord_lng poi <? west b)%num then coord_lng poi else west b |})
        b pois
  = {| north := scanBest num_gtb (north b) (coord_lat <$> pois);
       south := scanBest num_ltb (south b) (coord_lat <$> pois);
       east := scanBest num_gtb (east b) (coord_lng <$> pois);
       west := scanBest num_ltb (west b) (coord_lng <$> pois) |}.
Proof.
  revert b. induction pois as [|poi pois IH]; intros b; simpl; [by destruct b|].
  by rewrite IH.
Qed.

Lemma calculateBounds_fields (pois : list Coordinate) :
  calculateBounds pois
  = {| north := scanBest num_gtb NegInf (coord_lat <$> pois);
       south := scanBest num_ltb PosInf (coord_lat <$> pois);
       east := scanBest num_gtb NegInf (coord_lng <$> pois);
       west := scanBest num_ltb PosInf (coord_lng <$> pois) |}.
Proof. apply calculateBounds_from. Qed.

Lemma widenBounds_from (b : Bounds) (zones : list Zone) :
  foldl widenBounds b zones
  = {| north := scanBest num_gtb (north b) ((north ∘ bounds) <$> zones);
       south := scanBest num_ltb (south b) ((south ∘ bounds) <$> zones);
       east := scanBest num_gtb (east b) ((east ∘ bounds) <$> zones);
       west := scanBest num_ltb (west b) ((west ∘ bounds) <$> zones) |}.
Proof.
  revert b. induction zones as [|zone zones IH]; intros b; simpl; [by destruct b|].
  by rewrite IH.
Qed.

(** C9.  [calculateOverallBounds] returns [null] exactly on the empty zone
    list.  On a zone list that is not empty it returns the box across the
    zones' bounds: each side is one of the zones' values for that side (or
    the infinity the scan starts from, when no zone has a value that
    compares), and no zone reaches beyond it. *)
Theorem calculateOverallBounds_null (zones : list Zone) :
  (calculateOverallBounds zones = None ↔ zones = [])
  ∧ (zones ≠ [] →
     ∃ b, calculateOverallBounds zones = Some b
          ∧ (∀ zone, zone ∈ zones →
                     (north (bounds zone) >? north b)%num = false
                     ∧ (south (bounds zone) <? south b)%num = false
                     ∧ (east (bounds zone) >? east b)%num = false
                     ∧ (west (bounds zone) <? west b)%num = false)
          ∧ (north b = NegInf ∨ north b ∈ (north ∘ bounds) <$> zones)
          ∧ (south b = PosInf ∨ south b ∈ (south ∘ bounds) <$> zones)
          ∧ (east b = NegInf ∨ east b ∈ (east ∘ bounds) <$> zones)
          ∧ (west b = PosInf ∨ west b ∈ (west ∘ bounds) <$> zones)).
Proof.
  unfold calculateOverallBounds. split.
  - case_bool_decide as Hlen; split; try done.
    + intros _. by apply length_zero_iff_nil.
    + intros ->. done.
  - intros Hne. rewrite bool_decide_eq_false_2 by (by destruct zones).
    eexists. split; [done|]. rewrite widenBounds_from. simpl.
    assert (∀ l, is_best num_gtb NegInf l (scanBest num_gtb NegInf l)) as Hmax.
    { intros l. apply scanBest_is_best; unfold num_gtb; try done.
      - apply num_ltb_irrefl.
      - intros a b c ??. by eapply num_ltb_trans.
      - intros a b. apply num_ltb_not_NaN_r.
      - intros a b ????. by apply num_ltb_trichotomy. }
    assert (∀ l, is_best num_ltb PosInf l (scanBest num_ltb PosInf l)) as Hmin.
    { intros l. apply scanBest_is_best; try done.
      - apply num_ltb_irrefl.
      - apply num_ltb_trans.
      - apply num_ltb_not_NaN_l.
      - apply num_ltb_trichotomy. }
    split_and!.
    + intros zone Hz. split_and!.
      * apply (Hmax ((north ∘ bounds) <$> zones)).
        by apply (list_elem_of_fmap_2 (north ∘ bounds)).
      * apply (Hmin ((south ∘ bounds) <$> zones)).
        by apply (list_elem_of_fmap_2 (south ∘ bounds)).
      * apply (Hmax ((east ∘ bounds) <$> zones)).
        by apply (list_elem_of_fmap_2 (east ∘ bounds)).
      * apply (Hmin ((west ∘ bounds) <$> zones)).
        by apply (list_elem_of_fmap_2 (west ∘ bounds)).
    + apply Hmax.
    + apply Hmin.
    + apply Hmax.
    + apply Hmin.
Qed.

(** The box of a sample zone list. *)
Lemma calculateOverallBounds_null_witness :
  ∃ b, calculateOverallBounds
         [ {| id := "zone-0"; poiIndices := [0];
              bounds := {| north := num_of_Z 2; south := num_of_Z 1;
                           east := num_of_Z 4; west := num_of_Z 3 |};
              center := pt (num_of_Z 1) (num_of_Z 3); zoom := num_of_Z 15 |} ] = Some b.
Proof.
  destruct (proj2 (calculateOverallBounds_null
              [ {| id := "zone-0"; poiIndices := [0];
                   bounds := {| north := num_of_Z 2; south := num_of_Z 1;
                                east := num_of_Z 4; west := num_of_Z 3 |};
                   center := pt (num_of_Z 1) (num_of_Z 3); zoom := num_of_Z 15 |} ]))
    as (b&Hb&_); [done|].
  by exists b.
Defined.

(** C10.  [getZonePOIs] checks no bounds.  Its result has one entry per
    index of the zone, in the zone's order; the entry for index [i] is
    [pois[i]], which for an index at or past the length of [pois] is
    [undefined]; no error is raised, whatever the indices are. *)
Theorem getZonePOIs_no_bounds_check {T : Type} (pois : list T) (zone : Zone) :
  length (getZonePOIs pois zone) = length (poiIndices zone)
  ∧ (∀ k i, poiIndices zone !! k = Some i →
            getZonePOIs pois zone !! k = Some (pois !! i))
  ∧ (∀ k i, poiIndices zone !! k = Some i → length pois ≤ i →
            getZonePOIs pois zone !! k = Some None)
  ∧ (∀ k i, poiIndices zone !! k = Some i → i < length pois →
            ∃ p, pois !! i = Some p ∧ getZonePOIs pois zone !! k = Some (Some p)).
Proof.
  unfold getZonePOIs. split_and!.
  - apply length_map.
  - intros k i Hk. change (((λ i, pois !! i) <$> poiIndices zone) !! k = Some (pois !! i)).
    by rewrite list_lookup_fmap, Hk.
  - intros k i Hk Hi. change (((λ i, pois !! i) <$> poiIndices zone) !! k = Some None).
    rewrite list_lookup_fmap, Hk. simpl. f_equal. by apply lookup_ge_None.
  - intros k i Hk Hi. destruct (lookup_lt_is_Some_2 pois i Hi) as [p Hp].
    exists p. split; [done|].
    change (((λ i, pois !! i) <$> poiIndices zone) !! k = Some (Some p)).
    by rewrite list_lookup_fmap, Hk, <-Hp.
Qed.


Section OverallBounds.
Context {math : MathLib} {mapPlanner : MapPlanner} {T : Type} {poiLike : POILike T}.
Implicit Types (pois : list T) (config : option ZoneConfig).

(** Every zone is built from its own index list. *)
Lemma planZones_zone_shape pois config zone :
  zone ∈ planZones pois config →
  bounds zone = calculateBounds (memberCoordinates pois (poiIndices zone))
  ∧ center zone = calculateCenter (bounds zone)
  ∧ zoom zone = calculateZoom (bounds zone) (r_mapSize (mergeConfig config)).
Proof.
  unfold planZones. case_bool_decide; [by intros ?%elem_of_nil|].
  unfold reassignIds. intros (k&z&->&Hz%list_elem_of_lookup_2)%elem_of_lookup_imap.
  simpl. apply Array_sort_elem_of in Hz.
  apply elem_of_lookup_imap in Hz as (k'&c&->&_). done.
Qed.

Lemma poiLat_seq pois : poiLat pois <$> seq 0 (length pois) = lat <$> pois.
Proof.
  apply list_eq. intros k. rewrite !list_lookup_fmap. unfold poiLat.
  destruct (pois !! k) as [p|] eqn:Hk.
  - rewrite lookup_seq_lt by (by eapply lookup_lt_Some). simpl. by rewrite Hk.
  - rewrite lookup_seq_ge; [done|]. by apply lookup_ge_None.
Qed.

Lemma poiLng_seq pois : poiLng pois <$> seq 0 (length pois) = lng <$> pois.
Proof.
  apply list_eq. intros k. rewrite !list_lookup_fmap. unfold poiLng.
  destruct (pois !! k) as [p|] eqn:Hk.
  - rewrite lookup_seq_lt by (by eapply lookup_lt_Some). simpl. by rewrite Hk.
  - rewrite lookup_seq_ge; [done|]. by apply lookup_ge_None.
Qed.

(** One side of the overall box: the scan over the zones' values for that
    side is the scan over the values of all points. *)
Lemma scanBest_zones better init (side : Zone → number) (coordinate : nat → number)
    pois config :
  (∀ l l', l ≡ₚ l' → scanBest better init l = scanBest better init l') →
  (∀ ls, scanBest better init (scanBest better init <$> ls)
         = scanBest better init (concat ls)) →
  (∀ zone, zone ∈ planZones pois config →
           side zone = scanBest better init (coordinate <$> poiIndices zone)) →
  scanBest better init (side <$> planZones pois config)
  = scanBest better init (coordinate <$> seq 0 (length pois)).
Proof.
  intros Hperm Hconcat Hside.
  assert (side <$> planZones pois config
          = scanBest better init
              <$> (fmap coordinate <$> (poiIndices <$> planZones pois config))) as ->.
  { rewrite <-!list_fmap_compose. apply Forall_fmap_ext_1, Forall_forall.
    intros zone Hz. by apply Hside. }
  rewrite Hconcat. apply Hperm.
  change (concat (map (map coordinate) (poiIndices <$> planZones pois config))
          ≡ₚ coordinate <$> seq 0 (length pois)).
  rewrite <-concat_map. apply fmap_Permutation, planZones_concat.
Qed.

(** C6.  Overall bounds consistency: for an input that is not empty, the
    box [calculateOverallBounds] finds across the zones of [planZones] is
    the box [calculateBounds] finds across the input points; and the
    bounds of each zone are those of [calculateBounds] on the zone's
    member points. *)
Theorem overall_bounds_consistency pois config :
  pois ≠ [] →
  calculateOverallBounds (planZones pois config)
    = Some (calculateBounds (toCoordinate <$> pois))
  ∧ ∀ zone, zone ∈ planZones pois config →
            bounds zone = calculateBounds (memberCoordinates pois (poiIndices zone)).
Proof.
  intros Hne. split; [|by intros zone (?&_)%planZones_zone_shape].
  unfold calculateOverallBounds.
  rewrite bool_decide_eq_false_2.
  2:{ intros Hlen. apply length_zero_iff_nil in Hlen.
      pose proof (planZones_concat pois config) as Hperm. rewrite Hlen in Hperm.
      apply Permutation_length in Hperm. simpl in Hperm.
      rewrite length_seq in Hperm. by destruct pois. }
  f_equal. rewrite widenBounds_from, calculateBounds_fields. simpl.
  rewrite <-!list_fmap_compose.
  assert (∀ zone, zone ∈ planZones pois config →
            bounds zone
            = {| north := scanBest num_gtb NegInf (poiLat pois <$> poiIndices zone);
                 south := scanBest num_ltb PosInf (poiLat pois <$> poiIndices zone);
                 east := scanBest num_gtb NegInf (poiLng pois <$> poiIndices zone);
                 west := scanBest num_ltb PosInf (poiLng pois <$> poiIndices zone) |})
    as Hb.
  { intros zone (->&_)%planZones_zone_shape. rewrite calculateBounds_fields.
    unfold memberCoordinates. by rewrite <-!list_fmap_compose. }
  f_equal.
  - rewrite (scanBest_zones num_gtb NegInf (north ∘ bounds) (poiLat pois));
      [by rewrite poiLat_seq|apply scanBest_gtb_perm|apply scanBest_gtb_concat|].
    intros zone Hz. simpl. by rewrite (Hb zone Hz).
  - rewrite (scanBest_zones num_ltb PosInf (south ∘ bounds) (poiLat pois));
      [by rewrite poiLat_seq|apply scanBest_ltb_perm|apply scanBest_ltb_concat|].
    intros zone Hz. simpl. by rewrite (Hb zone Hz).
  - rewrite (scanBest_zones num_gtb NegInf (east ∘ bounds) (poiLng pois));
      [by rewrite poiLng_seq|apply scanBest_gtb_perm|apply scanBest_gtb_concat|].
    intros zone Hz. simpl. by rewrite (Hb zone Hz).
  - rewrite (scanBest_zones num_ltb PosInf (west ∘ bounds) (poiLng pois));
      [by rewrite poiLng_seq|apply scanBest_ltb_perm|apply scanBest_ltb_concat|].
    intros zone Hz. simpl. by rewrite (Hb zone Hz).
Qed.

End OverallBounds.


(* ====================================================================== *)
(** ** Display order *)
(* ====================================================================== *)

Section SortedFacts.
Context {A : Type} (comparefn : A → A → number) (dom : A → Prop).

Hypothesis sorts_before_trans :
  ∀ x y z, dom x → dom y → dom z →
           sorts_before comparefn x y → sorts_before comparefn y z →
           sorts_before comparefn x z.
Hypothesis sorts_before_total :
  ∀ x y, dom x → dom y → (comparefn x y >? num_zero)%num = true → sorts_before comparefn y x.

Lemma sort_insert_sorted x l :
  dom x → Forall dom l →
  StronglySorted (sorts_before comparefn) l →
  StronglySorted (sorts_before comparefn) (sort_insert comparefn x l).
Proof using All.
  intros Hx. induction l as [|y l IH]; intros Hdom Hsorted; cbn [sort_insert].
  - repeat constructor.
  - apply Forall_cons in Hdom as [Hy Hdom].
    apply StronglySorted_inv in Hsorted as [Hsorted Hall].
    destruct (comparefn x y >? num_zero)%num eqn:Hxy.
    + constructor; [by apply IH|].
      rewrite sort_insert_perm. constructor; [|done].
      by apply sorts_before_total.
    + constructor; [by constructor|]. constructor; [done|].
      rewrite Forall_forall in Hall, Hdom |- *. intros z Hz.
      apply (sorts_before_trans x y z); auto.
Qed.

Lemma Array_sort_sorted l :
  Forall dom l → StronglySorted (sorts_before comparefn) (Array_sort comparefn l).
Proof using All.
  induction l as [|x l IH]; intros Hdom; simpl; [constructor|].
  apply Forall_cons in Hdom as [Hx Hdom].
  apply sort_insert_sorted; [done| |by apply IH].
  by rewrite Array_sort_perm.
Qed.

End SortedFacts.

Lemma StronglySorted_lookup {A : Type} (R : A → A → Prop) l i j a b :
  StronglySorted R l → i < j → l !! i = Some a → l !! j = Some b → R a b.
Proof.
  intros Hsorted. revert i j. induction Hsorted as [|x l _ IH Hall]; intros i j Hij Hi Hj.
  - done.
  - destruct j as [|j]; [lia|]. destruct i as [|i]; simpl in *.
    + injection Hi as ->. rewrite Forall_forall in Hall. apply Hall.
      by eapply list_elem_of_lookup_2.
    + apply (IH i j); [lia|done..].
Qed.

(** Linear arithmetic on canonical rationals, by way of the rationals. *)
Ltac qc_lra :=
  unfold Qclt, Qcle in *; simpl in *;
  repeat match goal with
  | H : context [Qred ?q] |- _ => rewrite (Qred_correct q) in H
  | |- context [Qred ?q] => rewrite (Qred_correct q)
  end;
  unfold inject_Z in *; lra.

Section ZoneOrder.





End ZoneOrder.




Section DisplayOrder.
Context {math : MathLib} {mapPlanner : MapPlanner} {T : Type} {poiLike : POILike T}.
Implicit Types (pois : list T) (config : option ZoneConfig).




End DisplayOrder.



(** With room for one point per zone, the zones are the single points,
    whatever the distances are. *)
Lemma capacity_one_zones {math : MathLib} {mapPlanner : MapPlanner} {T : Type}
    {poiLike : POILike T} (pois : list T) (config : option ZoneConfig) :
  r_maxPoisPerZone (mergeConfig config) = 1%Z →
  poiIndices <$> planZones pois config ≡ₚ (λ i, [i]) <$> seq 0 (length pois).
Proof.
  intros Hmax.
  assert (Forall (λ c : list nat, length c = 1) (poiIndices <$> planZones pois config)) as Hone.
  { apply Forall_fmap. eapply Forall_impl; [apply planZones_sizes|].
    intros zone [Hlo Hhi]. rewrite Hmax in Hhi. simpl. lia. }
  assert (∀ ls : list (list nat),
            Forall (λ c, length c = 1) ls → ls = (λ i, [i]) <$> concat ls) as Hsingle.
  { induction 1 as [|c ls Hc _ IH]; [done|].
    destruct c as [|i [|??]]; try done. simpl. by f_equal. }
  rewrite (Hsingle _ Hone). apply fmap_Permutation, planZones_concat.
Qed.

(** No list of zones that has the three zones of the staircase in it is in
    display order: the first may only precede the second, the second only
    the third, and the third only the first. *)
Lemma staircase_cycle (zones : list Zone) :
  stair 0 ∈ bounds <$> zones → stair 1 ∈ bounds <$> zones → stair 2 ∈ bounds <$> zones →
  ¬ display_ordered zones.
Proof.
  intros (z0&Hb0&[p0 Hp0]%list_elem_of_lookup_1)%list_elem_of_fmap
         (z1&Hb1&[p1 Hp1]%list_elem_of_lookup_1)%list_elem_of_fmap
         (z2&Hb2&[p2 Hp2]%list_elem_of_lookup_1)%list_elem_of_fmap Hord.
  assert (∀ i j zi zj ki kj,
            zones !! i = Some zi → zones !! j = Some zj →
            stair ki = bounds zi → stair kj = bounds zj →
            (ki, kj) = (1, 0) ∨ (ki, kj) = (2, 1) ∨ (ki, kj) = (0, 2) → j ≤ i) as Hback.
  { intros i j zi zj ki kj Hi Hj Hbi Hbj Hk.
    destruct (decide (i < j)) as [Hij|]; [exfalso|lia].
    specialize (Hord i j zi zj Hij Hi Hj). rewrite <-Hbi, <-Hbj in Hord.
    destruct Hk as [[= -> ->]|[[= -> ->]|[= -> ->]]];
      vm_compute in Hord; by destruct Hord as [?|[? ?]]. }
  assert (∀ i zi zj ki kj,
            zones !! i = Some zi → zones !! i = Some zj →
            stair ki = bounds zi → stair kj = bounds zj →
            (ki, kj) = (1, 0) ∨ (ki, kj) = (2, 1) ∨ (ki, kj) = (0, 2) → False) as Hdiff.
  { intros i zi zj ki kj Hi Hj Hbi Hbj Hk.
    assert (zi = zj) as -> by congruence.
    assert (north (stair ki) = north (stair kj)) as Hn by congruence.
    destruct Hk as [[= -> ->]|[[= -> ->]|[= -> ->]]];
      vm_compute in Hn; injection Hn as Hn; discriminate Hn. }
  pose proof (Hback p1 p0 z1 z0 1 0 Hp1 Hp0 Hb1 Hb0 (or_introl eq_refl)) as H10.
  pose proof (Hback p2 p1 z2 z1 2 1 Hp2 Hp1 Hb2 Hb1 (or_intror (or_introl eq_refl))) as H21.
  pose proof (Hback p0 p2 z0 z2 0 2 Hp0 Hp2 Hb0 Hb2 (or_intror (or_intror eq_refl))) as H02.
  assert (p0 ≠ p1) as Hne.
  { intros ->. by apply (Hdiff p1 z1 z0 1 0 Hp1 Hp0 Hb1 Hb0 (or_introl eq_refl)). }
  lia.
Qed.

(** The staircase has no display order at all, whatever [Math] computes and
    in whatever order a sort leaves the zones. *)
Lemma staircase_unorderable {math : MathLib} {mapPlanner : MapPlanner} (zones : list Zone) :
  zones ≡ₚ planZones staircase cfg11 → ¬ display_ordered zones.
Proof.
  intros Hperm.
  assert (∀ k, k < 3 → stair k ∈ bounds <$> zones) as Hk.
  { intros k Hlt. rewrite Hperm.
    assert ([k] ∈ poiIndices <$> planZones staircase cfg11) as Hin.
    { rewrite (capacity_one_zones staircase cfg11) by done.
      apply (list_elem_of_fmap_2 (λ i, [i])), elem_of_seq. simpl. lia. }
    apply list_elem_of_fmap in Hin as (zone&Hidx&Hzone).
    apply list_elem_of_fmap. exists zone. split; [|done].
    destruct (planZones_zone_shape staircase cfg11 zone Hzone) as (->&_).
    unfold stair. by rewrite <-Hidx. }
  apply staircase_cycle; apply Hk; lia.
Qed.

(** The overall box of the staircase. *)
Lemma overall_bounds_consistency_witness :
  calculateOverallBounds
    (planZones (math := smallAngleMath) (mapPlanner := sampleMapPlanner) staircase cfg11)
  = Some (calculateBounds (toCoordinate <$> staircase)).
Proof.
  by apply (overall_bounds_consistency (math := smallAngleMath) (mapPlanner := sampleMapPlanner)).
Defined.

(* ====================================================================== *)
(** ** Two points ten metres apart *)
(* ====================================================================== *)

Section TwoPoints.
Context {math : MathLib} {mapPlanner : MapPlanner} {T : Type} {poiLike : POILike T}.
Implicit Types (pois : list T).




End TwoPoints.



(* ====================================================================== *)
(** ** Determinism *)
(* ====================================================================== *)




(** The planner reads of its input only the length and the coordinates:
    two inputs with the same coordinates, whatever else their records hold,
    are planned alike. *)
Section SameCoordinates.
Context {math : MathLib} {mapPlanner : MapPlanner}.
Context {T1 T2 : Type} {poiLike1 : POILike T1} {poiLike2 : POILike T2}.
Variables (pois1 : list T1) (pois2 : list T2).
Hypothesis same : toCoordinate <$> pois1 = toCoordinate <$> pois2.















End SameCoordinates.




(** That pass leaves two clusters of the three. *)
Lemma mergeSmallClusters_terminates_witness :
  length [[0; 1]; [2]] < length [[0]; [1]; [2]]
  ∧ S (length [[0; 1]; [2]]) = length [[0]; [1]; [2]].
Proof.
  apply (proj1 (mergeSmallClusters_terminates (math := smallAngleMath)
                  meridian cfg22 [[0]; [1]; [2]]) [[0; 1]; [2]]).
  by vm_compute.
Defined.

(* ====================================================================== *)
(** ** The scenarios of the specification, run *)
(* ====================================================================== *)

(** No points, no zones. *)
Example scenario_empty {math : MathLib} {mapPlanner : MapPlanner} :
  planZones ([] : list Coordinate) None = [].
Proof. done. Qed.

(** One point, one zone with index 0. *)
Example scenario_one_point {math : MathLib} {mapPlanner : MapPlanner} :
  (λ zone, (id zone, poiIndices zone))
    <$> planZones [pt (dec 4365 100) (dec (-7938) 100)] None
  = [("zone-0", [0])].
Proof. by vm_compute. Qed.

(** Two points five kilometres apart stay two zones: the centroids are
    further apart than three cluster radii. *)
Example scenario_far_apart :
  (λ zone, (id zone, poiIndices zone))
    <$> planZones (math := smallAngleMath) (mapPlanner := sampleMapPlanner)
          fiveKilometres None
  = [("zone-0", [1]); ("zone-1", [0])].
Proof. by vm_compute. Qed.

(** Twelve points close together, capacity ten: a zone of ten and a zone of
    the remaining two, which stays below the minimum of three. *)
Example scenario_capacity :
  (λ zone, (id zone, poiIndices zone))
    <$> planZones (math := smallAngleMath) (mapPlanner := sampleMapPlanner)
          twelvePoints None
  = [("zone-0", [11; 10; 9; 8; 7; 6; 5; 4; 3; 2]); ("zone-1", [1; 0])].
Proof. by vm_compute. Qed.

(* ====================================================================== *)
(** ** More of the planner: zone counts, identifiers, lookups *)
(* ====================================================================== *)



Lemma zoneId_inj : Inj (=) (=) zoneId.
Proof.
  intros i j Heq. unfold zoneId in Heq.
  apply (inj (String.append "zone-")) in Heq. by apply (inj pretty) in Heq.
Qed.

Lemma reassignIds_lookup zones k zone :
  reassignIds zones !! k = Some zone →
  id zone = zoneId k ∧ ∃ z, zones !! k = Some z ∧ poiIndices zone = poiIndices z
                            ∧ bounds zone = bounds z ∧ center zone = center z
                            ∧ zoom zone = zoom z.
Proof.
  unfold reassignIds. rewrite list_lookup_imap.
  destruct (zones !! k) as [z|]; simpl; [|done].
  intros [= <-]. split; [done|]. by exists z.
Qed.

Section ZoneCounts.
Context {math : MathLib} {mapPlanner : MapPlanner} {T : Type} {poiLike : POILike T}.
Implicit Types (pois : list T).


(** X2.  Zone identifiers.  The zone at position [k] of the result has the
    identifier [zone-k], with [k] in decimal; so the identifiers are
    pairwise distinct and follow the order of the result. *)
Theorem planZones_ids pois (config : option ZoneConfig) :
  (∀ k zone, planZones pois config !! k = Some zone → id zone = "zone-" +:+ pretty k)
  ∧ NoDup (id <$> planZones pois config).
Proof.
  assert (∀ k zone, planZones pois config !! k = Some zone → id zone = zoneId k) as Hid.
  { unfold planZones. case_bool_decide; [done|].
    intros k zone Hk. by apply reassignIds_lookup in Hk as [? _]. }
  split; [done|].
  apply NoDup_alt. intros i j s Hi Hj.
  rewrite list_lookup_fmap in Hi, Hj.
  destruct (planZones pois config !! i) as [zi|] eqn:Hzi; [|done].
  destruct (planZones pois config !! j) as [zj|] eqn:Hzj; [|done].
  simpl in Hi, Hj. injection Hi as Hi. injection Hj as Hj.
  apply zoneId_inj. rewrite <-(Hid _ _ Hzi), <-(Hid _ _ Hzj). congruence.
Qed.

(** X3.  Looking the zones' points up again.  On the zones that
    [planZones] returns for [pois], [getZonePOIs] reads only positions that
    exist, so it never yields [undefined]; and the points it returns for
    all the zones together are the input points, each one once. *)
Theorem getZonePOIs_planZones pois (config : option ZoneConfig) :
  (∀ zone o, zone ∈ planZones pois config → o ∈ getZonePOIs pois zone → is_Some o)
  ∧ concat (getZonePOIs pois <$> planZones pois config) ≡ₚ Some <$> pois.
Proof.
  assert (concat (getZonePOIs pois <$> planZones pois config) ≡ₚ Some <$> pois) as Hperm.
  { assert (getZonePOIs pois <$> planZones pois config
            = map (λ i, pois !! i) <$> (poiIndices <$> planZones pois config)) as ->.
    { by rewrite <-list_fmap_compose. }
    change (concat (map (map (λ i, pois !! i)) (poiIndices <$> planZones pois config))
            ≡ₚ Some <$> pois).
    rewrite <-concat_map.
    change (((λ i, pois !! i) <$> concat (poiIndices <$> planZones pois config))
            ≡ₚ Some <$> pois).
    rewrite (planZones_concat pois config).
    assert ((λ i, pois !! i) <$> seq 0 (length pois) = Some <$> pois) as ->; [|done].
    apply list_eq. intros k. rewrite !list_lookup_fmap.
    destruct (pois !! k) as [p|] eqn:Hk.
    - rewrite lookup_seq_lt by (by eapply lookup_lt_Some). simpl. by rewrite Hk.
    - rewrite lookup_seq_ge; [done|]. by apply lookup_ge_None. }
  split; [|done].
  intros zone o Hzone Ho.
  assert (o ∈ Some <$> pois) as (p&->&_)%list_elem_of_fmap; [|done].
  rewrite <-Hperm. apply elem_of_concat. exists (getZonePOIs pois zone).
  split; [done|]. by apply list_elem_of_fmap_2.
Qed.

(** X4.  Capacity one and below.  With [maxPoisPerZone] at one, or at zero
    or negative, which the seed loop treats alike, every point is a zone of
    its own: each zone has exactly one member and there are as many zones
    as points, whatever the distances and the minimum are. *)
Theorem planZones_capacity_one pois (config : option ZoneConfig) :
  (r_maxPoisPerZone (mergeConfig config) ≤ 1)%Z →
  Forall (λ zone, length (poiIndices zone) = 1) (planZones pois config)
  ∧ length (planZones pois config) = length pois.
Proof.
  intros Hmax.
  assert (Forall (λ zone, length (poiIndices zone) = 1) (planZones pois config)) as Hone.
  { eapply Forall_impl; [apply planZones_sizes|].
    intros zone [Hlo Hhi]. simpl. lia. }
  split; [done|].
  pose proof (planZones_concat pois config) as Hperm.
  apply Permutation_length in Hperm. rewrite length_seq in Hperm.
  rewrite <-Hperm. clear Hperm.
  induction Hone as [|zone zones Hz _ IH]; simpl; [done|].
  rewrite length_app, Hz, IH. done.
Qed.

End ZoneCounts.

(** The staircase at capacity one: three zones of one point. *)
Lemma planZones_capacity_one_witness :
  Forall (λ zone, length (poiIndices zone) = 1)
         (planZones (math := smallAngleMath) (mapPlanner := sampleMapPlanner)
            staircase cfg11)
  ∧ length (planZones (math := smallAngleMath) (mapPlanner := sampleMapPlanner)
              staircase cfg11) = length staircase.
Proof.
  apply (planZones_capacity_one (math := smallAngleMath) (mapPlanner := sampleMapPlanner)
           staircase cfg11).
  by vm_compute.
Defined.

(** X5.  The overall box does not depend on the order of the zones:
    [calculateOverallBounds] gives the same result on any rearrangement of
    a zone list. *)
Theorem calculateOverallBounds_perm (zones zones' : list Zone) :
  zones ≡ₚ zones' → calculateOverallBounds zones = calculateOverallBounds zones'.
Proof.
  intros Hperm. unfold calculateOverallBounds.
  rewrite <-(Permutation_length Hperm).
  case_bool_decide; [done|]. f_equal.
  rewrite !widenBounds_from. simpl.
  f_equal; first [apply scanBest_gtb_perm | apply scanBest_ltb_perm];
    by apply fmap_Permutation.
Qed.

(** The two zones of [twoRows], in display order and the other way round. *)
Lemma calculateOverallBounds_perm_witness :
  calculateOverallBounds
    (reverse (planZones (math := smallAngleMath) (mapPlanner := sampleMapPlanner)
                twoRows cfg11))
  = calculateOverallBounds
      (planZones (math := smallAngleMath) (mapPlanner := sampleMapPlanner) twoRows cfg11).
Proof.
  apply calculateOverallBounds_perm. vm_compute. apply perm_swap.
Defined.

(* ====================================================================== *)
(** ** More of the rebalancing stage *)
(* ====================================================================== *)

Section MergeContract.
Context {math : MathLib} {T : Type} {poiLike : POILike T}.
Implicit Types (pois : list T) (config : RequiredZoneConfig).
Implicit Types (wc : list (list nat)).



(** The loop ends on a list that a further pass leaves alone. *)
Lemma mergeWhile_settled pois config wc :
  mergePass pois config (mergeWhile pois config wc) = None.
Proof.
  apply (mergeWhile_loop_ind pois config (λ _ r, mergePass pois config r = None)); done.
Qed.


(** X7.  Rebalancing goes as far as it can.  When the cluster radius is
    finite, the result has no undersized cluster with an eligible partner
    left: a cluster below [minPoisPerZone] stays only when no other cluster
    both fits with it in [maxPoisPerZone] and has its centroid within three
    cluster radii. *)
Theorem mergeSmallClusters_maximal pois config wc :
  is_finite (r_clusterRadiusMeters config) →
  ∀ i j, i < length (mergeSmallClusters wc pois config) →
         j < length (mergeSmallClusters wc pois config) →
         undersized config (mergeSmallClusters wc pois config) i →
         ¬ eligible pois config (mergeSmallClusters wc pois config) i j.
Proof.
  intros [q Hq] i j Hi Hj Hu Hel.
  assert (mergePass pois config (mergeSmallClusters wc pois config) = None
          ∨ length (mergeSmallClusters wc pois config) ≤ 1) as [Hnone|Hlen].
  { unfold mergeSmallClusters. case_bool_decide; [by right|left].
    apply mergeWhile_settled. }
  - pose proof (proj1 (mergePass_None _ _ _) Hnone i Hi Hu) as Hbest.
    pose proof (findBestMerge_inv pois config (mergeSmallClusters wc pois config) i) as Hinv.
    unfold best_inv in Hinv. rewrite Hbest in Hinv. destruct Hinv as [_ Hfar].
    specialize (Hfar j Hj Hel). destruct Hel as (_&_&Hd).
    rewrite Hq in Hd. revert Hfar Hd.
    by destruct (pairDistance pois (mergeSmallClusters wc pois config) i j).
  - destruct Hel as (Hij&_). lia.
Qed.

(** X8.  Rebalancing twice is rebalancing once. *)
Theorem mergeSmallClusters_idempotent pois config wc :
  mergeSmallClusters (mergeSmallClusters wc pois config) pois config
  = mergeSmallClusters wc pois config.
Proof.
  unfold mergeSmallClusters at 2. case_bool_decide as Hlen.
  - unfold mergeSmallClusters. by rewrite bool_decide_eq_true_2.
  - unfold mergeSmallClusters. rewrite (bool_decide_eq_false_2 _ Hlen).
    case_bool_decide; [done|].
    by rewrite mergeWhile_step, mergeWhile_settled.
Qed.

(** X9.  A minimum of one (or less) switches rebalancing off: no cluster
    with a member is undersized, so clusters that are not empty come back
    as they are, and the clusters of [clusterPOIs] are those of the greedy
    stage. *)
Theorem mergeSmallClusters_min_one pois config :
  (r_minPoisPerZone config ≤ 1)%Z →
  (∀ wc, Forall (λ c, c ≠ []) wc → mergeSmallClusters wc pois config = wc)
  ∧ clusterPOIs pois config = greedyClusters pois config.
Proof.
  intros Hmin.
  assert (∀ wc, Forall (λ c, c ≠ []) wc → mergeSmallClusters wc pois config = wc) as Hsame.
  { intros wc Hall. unfold mergeSmallClusters. case_bool_decide; [done|].
    rewrite mergeWhile_step.
    assert (mergePass pois config wc = None) as ->; [|done].
    apply mergePass_None. intros i Hi Hu. exfalso.
    apply list_lookup_lookup_total_lt in Hi.
    pose proof (Forall_lookup_1 _ _ _ _ Hall Hi) as Hne.
    unfold undersized in Hu. destruct (wc !!! i); [done|]. simpl in Hu. lia. }
  split; [done|].
  unfold clusterPOIs. case_bool_decide as Hlen.
  - by destruct pois.
  - apply Hsame. eapply Forall_impl; [apply greedyClusters_sizes|].
    intros c [Hc _] ->. simpl in Hc. lia.
Qed.

End MergeContract.

(** The maximality on a sample run: the three points of [meridian] as three
    clusters, zones of exactly two. *)
Lemma mergeSmallClusters_maximal_witness :
  is_finite (r_clusterRadiusMeters cfg22)
  ∧ ∀ i j,
      i < length (mergeSmallClusters (math := smallAngleMath) [[0]; [1]; [2]] meridian cfg22) →
      j < length (mergeSmallClusters (math := smallAngleMath) [[0]; [1]; [2]] meridian cfg22) →
      undersized cfg22
        (mergeSmallClusters (math := smallAngleMath) [[0]; [1]; [2]] meridian cfg22) i →
      ¬ eligible (math := smallAngleMath) meridian cfg22
          (mergeSmallClusters (math := smallAngleMath) [[0]; [1]; [2]] meridian cfg22) i j.
Proof.
  assert (is_finite (r_clusterRadiusMeters cfg22)) as Hfinite.
  { eexists. by vm_compute. }
  split; [done|].
  exact (mergeSmallClusters_maximal (math := smallAngleMath) meridian cfg22
           [[0]; [1]; [2]] Hfinite).
Defined.

(** The staircase with a minimum of one. *)
Lemma mergeSmallClusters_min_one_witness :
  (∀ wc, Forall (λ c, c ≠ []) wc →
         mergeSmallClusters (math := smallAngleMath) wc staircase (mergeConfig cfg11) = wc)
  ∧ clusterPOIs (math := smallAngleMath) staircase (mergeConfig cfg11)
    = greedyClusters (math := smallAngleMath) staircase (mergeConfig cfg11).
Proof.
  apply (mergeSmallClusters_min_one (math := smallAngleMath) staircase (mergeConfig cfg11)).
  by vm_compute.
Defined.

(* ====================================================================== *)
(** ** More of the greedy stage: what a cluster looks like *)
(* ====================================================================== *)

(** The comparator [a - b] asks for a swap exactly when [b < a]. *)
Lemma num_sub_gtb_zero a b :
  a ≠ NaN → b ≠ NaN → (a - b >? num_zero)%num = (b <? a)%num.
Proof.
  destruct a as [x| | |], b as [y| | |]; try done.
  intros _ _. unfold num_gtb, num_sub, num_zero, num_of_Z. simpl.
  apply bool_decide_ext. split; intros H; qc_lra.
Qed.

Lemma num_ltb_false_trans a b c :
  a ≠ NaN → b ≠ NaN → c ≠ NaN →
  (b <? a)%num = false → (c <? b)%num = false → (c <? a)%num = false.
Proof.
  destruct a as [x| | |], b as [y| | |], c as [z| | |]; simpl; try done.
  rewrite !bool_decide_eq_false. intros _ _ _ Hyx%Qcnot_lt_le Hzy%Qcnot_lt_le.
  apply Qcle_not_lt. by eapply Qcle_trans.
Qed.

Lemma StronglySorted_fmap_dom {A B : Type} (f : A → B) (P : A → Prop)
    (R1 : relation A) (R2 : relation B) (l : list A) :
  (∀ x y, P x → P y → R1 x y → R2 (f x) (f y)) →
  Forall P l → StronglySorted R1 l → StronglySorted R2 (f <$> l).
Proof.
  intros HR Hall Hsorted. induction Hsorted as [|x l _ IH Hx]; csimpl; [constructor|].
  apply Forall_cons in Hall as [HPx Hall].
  constructor; [by apply IH|].
  apply Forall_fmap. rewrite Forall_forall in Hx, Hall |- *.
  intros y Hy. apply HR; auto.
Qed.

(** The candidates of a seed come out of the sort nearest first. *)
Lemma candidates_sorted (candidates : list (nat * number)) :
  Forall (λ cd, cd.2 ≠ NaN) candidates →
  StronglySorted (λ a b, (b.2 <? a.2)%num = false)
    (Array_sort (λ a b : nat * number, (a.2 - b.2)%num) candidates).
Proof.
  intros Hall.
  rewrite <-(list_fmap_id (Array_sort _ candidates)).
  apply (StronglySorted_fmap_dom (λ cd, cd) (λ cd : nat * number, cd.2 ≠ NaN)
           (sorts_before (λ a b : nat * number, (a.2 - b.2)%num))).
  - intros a b Ha Hb. unfold sorts_before. by rewrite num_sub_gtb_zero.
  - by rewrite Array_sort_perm.
  - apply (Array_sort_sorted _ (λ cd : nat * number, cd.2 ≠ NaN)); [| |done].
    + intros a b c Ha Hb Hc. unfold sorts_before.
      rewrite !num_sub_gtb_zero by done. by apply num_ltb_false_trans.
    + intros a b Ha Hb. unfold sorts_before.
      rewrite !num_sub_gtb_zero by done. intros Hlt.
      destruct (a.2 <? b.2)%num eqn:Hab; [|done].
      pose proof (num_ltb_trans _ _ _ Hlt Hab) as Habs.
      by rewrite num_ltb_irrefl in Habs.
Qed.

Section GreedyShape.
Context {math : MathLib} {T : Type} {poiLike : POILike T}.
Implicit Types (pois : list T) (config : RequiredZoneConfig).

Lemma seedStep_seed_first pois config indices st seedIndex :
  Forall (seed_first pois (r_clusterRadiusMeters config)) (st_clusters st) →
  Forall (seed_first pois (r_clusterRadiusMeters config))
         (st_clusters (seedStep pois config indices st seedIndex)).
Proof.
  intros Hall. unfold seedStep. case_bool_decide; [done|].
  set (assigned := {[seedIndex]} ∪ st_assigned st).
  set (candidates := findCandidates pois _ assigned seedIndex indices).
  set (sorted := Array_sort _ candidates).
  destruct (addCandidates_spec (r_maxPoisPerZone config) sorted [seedIndex] assigned)
    as (taken&[k Hpre]&Hc&_&_).
  destruct (addCandidates _ _ _ sorted) as [cluster assigned'] eqn:Hadd.
  simpl in Hc. subst cluster. simpl.
  apply Forall_app. split; [done|]. constructor; [|constructor].
  assert (Forall (λ cd : nat * number,
                    cd.2 = seedDistance pois seedIndex cd.1
                    ∧ (cd.2 <=? r_clusterRadiusMeters config)%num = true) sorted) as Hsorted.
  { unfold sorted. rewrite Array_sort_perm. apply Forall_forall. intros [c d] Hin.
    apply findCandidates_elem_of in Hin as (_&_&?&?). done. }
  assert (StronglySorted
            (λ i j, (seedDistance pois seedIndex j <? seedDistance pois seedIndex i)%num
                    = false) sorted.*1) as Hnear.
  { apply (StronglySorted_fmap_dom fst
             (λ cd : nat * number,
                cd.2 = seedDistance pois seedIndex cd.1
                ∧ (cd.2 <=? r_clusterRadiusMeters config)%num = true)
             (λ a b, (b.2 <? a.2)%num = false)); [|done|].
    - intros a b [Ha _] [Hb _]. by rewrite Ha, Hb.
    - apply candidates_sorted.
      rewrite <-(Array_sort_perm (λ a b : nat * number, (a.2 - b.2)%num) candidates).
      eapply Forall_impl; [apply Hsorted|].
      intros cd [_ Hle]. by eapply num_leb_not_NaN_l. }
  exists seedIndex, taken. split_and!; [done| |].
  - assert (Forall (λ i, (seedDistance pois seedIndex i
                          <=? r_clusterRadiusMeters config)%num = true) sorted.*1) as Hin.
    { apply Forall_fmap. eapply Forall_impl; [apply Hsorted|].
      intros cd [Heq Hle]. simpl. by rewrite <-Heq. }
    rewrite Hpre in Hin. by apply Forall_app in Hin as [? _].
  - rewrite Hpre in Hnear. apply StronglySorted_app_1_l in Hnear.
    intros a b i j Hab Ha Hb.
    by apply (StronglySorted_lookup _ _ _ _ _ _ Hnear Hab Ha Hb).
Qed.

Lemma greedyClusters_seed_first pois config :
  Forall (seed_first pois (r_clusterRadiusMeters config)) (greedyClusters pois config).
Proof.
  unfold greedyClusters.
  generalize (sortedIndices pois) at 2 as todo.
  assert (Forall (seed_first pois (r_clusterRadiusMeters config))
                 (st_clusters {| st_assigned := ∅; st_clusters := [] |})) as Hinit
    by constructor.
  revert Hinit. generalize {| st_assigned := ∅; st_clusters := [] |} as st.
  intros st Hst todo. revert st Hst.
  induction todo as [|seedIndex todo IH]; intros st Hst; simpl; [done|].
  apply IH. by apply seedStep_seed_first.
Qed.

(** X10.  The clusters of the greedy stage.  Each one starts with its
    seed; every other member lies within [clusterRadiusMeters] of the seed
    (by the distance the planner computes), and the members after the seed
    come nearest first. *)
Theorem greedyClusters_within_radius pois config :
  Forall (λ cluster,
            ∃ seed rest,
              cluster = seed :: rest
              ∧ (∀ i, i ∈ rest →
                      (haversineDistance (poiLat pois seed) (poiLng pois seed)
                                         (poiLat pois i) (poiLng pois i)
                       <=? r_clusterRadiusMeters config)%num = true)
              ∧ ∀ a b i j, a < b → rest !! a = Some i → rest !! b = Some j →
                  (haversineDistance (poiLat pois seed) (poiLng pois seed)
                                     (poiLat pois j) (poiLng pois j)
                   <? haversineDistance (poiLat pois seed) (poiLng pois seed)
                                        (poiLat pois i) (poiLng pois i))%num = false)
         (greedyClusters pois config).
Proof.
  eapply Forall_impl; [apply greedyClusters_seed_first|].
  intros cluster (seed&rest&->&Hwithin&Hnear).
  exists seed, rest. split_and!; [done| |done].
  by apply Forall_forall.
Qed.

End GreedyShape.

Section OneZone.
Context {math : MathLib} {mapPlanner : MapPlanner} {T : Type} {poiLike : POILike T}.
Implicit Types (pois : list T).

(** X11.  Zones when rebalancing is off.  With [minPoisPerZone] at one (or
    less) every zone of [planZones] is a cluster of the greedy stage: its
    first index is the seed and every other member lies within
    [clusterRadiusMeters] of the seed. *)
Theorem planZones_min_one_radius pois (config : option ZoneConfig) :
  (r_minPoisPerZone (mergeConfig config) ≤ 1)%Z →
  Forall (λ zone,
            ∃ seed rest,
              poiIndices zone = seed :: rest
              ∧ ∀ i, i ∈ rest →
                     (haversineDistance (poiLat pois seed) (poiLng pois seed)
                                        (poiLat pois i) (poiLng pois i)
                      <=? r_clusterRadiusMeters (mergeConfig config))%num = true)
         (planZones pois config).
Proof.
  intros Hmin. apply Forall_forall. intros zone Hzone.
  assert (clusterPOIs pois (mergeConfig config) = greedyClusters pois (mergeConfig config))
    as Hgreedy.
  { unfold clusterPOIs, mergeSmallClusters. case_bool_decide as Hlen; [by destruct pois|].
    case_bool_decide; [done|]. rewrite mergeWhile_step.
    assert (mergePass pois (mergeConfig config) (greedyClusters pois (mergeConfig config))
            = None) as ->; [|done].
    apply mergePass_None. intros i Hi Hu. exfalso.
    apply list_lookup_lookup_total_lt in Hi.
    pose proof (Forall_lookup_1 _ _ _ _ (greedyClusters_sizes pois (mergeConfig config)) Hi)
      as [Hne _].
    unfold undersized in Hu. lia. }
  assert (poiIndices zone ∈ greedyClusters pois (mergeConfig config)) as Hin.
  { rewrite <-Hgreedy, <-(planZones_poiIndices pois config). by apply list_elem_of_fmap_2. }
  pose proof (greedyClusters_seed_first pois (mergeConfig config)) as Hall.
  rewrite Forall_forall in Hall.
  destruct (Hall _ Hin) as (seed&rest&Heq&Hwithin&_).
  exists seed, rest. split; [done|]. by apply Forall_forall.
Qed.

(** With every index within the radius, the candidates of a seed are all
    the indices not assigned yet. *)
Lemma findCandidates_all pois radius (assigned : gset nat) seedIndex (indices : list nat) :
  (∀ c, c ∈ indices → (seedDistance pois seedIndex c <=? radius)%num = true) →
  (findCandidates pois radius assigned seedIndex indices).*1
  = filter (λ c, c ∉ assigned) indices.
Proof.
  induction indices as [|c indices IH]; intros Hall; simpl; [done|].
  rewrite filter_cons. case_bool_decide as Hc.
  - rewrite decide_False by (by intros ?). apply IH. intros c' ?. apply Hall. by right.
  - rewrite decide_True by done. rewrite (Hall c) by (by left). csimpl. f_equal.
    apply IH. intros c' ?. apply Hall. by right.
Qed.

(** With room for all of them, the capacity loop takes every candidate. *)
Lemma addCandidates_room maxP (cluster : list nat) (assigned : gset nat)
    (candidates : list (nat * number)) :
  (Z.of_nat (length cluster + length candidates) ≤ maxP)%Z →
  (addCandidates maxP cluster assigned candidates).1 = cluster ++ candidates.*1.
Proof.
  revert cluster assigned.
  induction candidates as [|[c d] candidates IH]; intros cluster assigned Hroom; simpl.
  - by rewrite app_nil_r.
  - simpl in Hroom. rewrite bool_decide_eq_false_2 by lia.
    rewrite IH; [by rewrite <-app_assoc|]. rewrite length_app. simpl. lia.
Qed.

(** The seed loop only adds clusters at the end. *)
Lemma seedLoop_prefix pois config indices todo st :
  st_clusters st `prefix_of` st_clusters (foldl (seedStep pois config indices) st todo).
Proof.
  revert st. induction todo as [|seedIndex todo IH]; intros st; simpl; [done|].
  etransitivity; [|apply IH].
  unfold seedStep. case_bool_decide; [done|].
  destruct (addCandidates _ _ _ _) as [cluster assigned']. simpl.
  by apply prefix_app_r.
Qed.

(** Points that are all within the radius of each other and fit in one
    zone make one greedy cluster. *)
Lemma greedyClusters_one pois config :
  pois ≠ [] →
  (Z.of_nat (length pois) ≤ r_maxPoisPerZone config)%Z →
  (∀ i j, i < length pois → j < length pois →
          (seedDistance pois i j <=? r_clusterRadiusMeters config)%num = true) →
  ∃ cluster, greedyClusters pois config = [cluster] ∧ cluster ≡ₚ seq 0 (length pois).
Proof.
  intros Hne Hroom Hnear.
  pose proof (greedyClusters_perm pois config) as Hperm.
  pose proof (greedyClusters_sizes pois config) as Hsizes.
  pose proof (sortedIndices_perm pois) as Hsorted.
  assert (NoDup (sortedIndices pois)) as Hnd by (rewrite Hsorted; apply NoDup_seq).
  assert (∃ first others, greedyClusters pois config = first :: others
                          ∧ length first = length pois) as (first&others&Heq&Hlen).
  { unfold greedyClusters in *.
    destruct (sortedIndices pois) as [|s rest] eqn:Hidx.
    { apply Permutation_length in Hsorted. rewrite length_seq in Hsorted.
      by destruct pois. }
    cbn [foldl].
    pose proof (seedLoop_prefix pois config (s :: rest) rest
                  (seedStep pois config (s :: rest)
                     {| st_assigned := ∅; st_clusters := [] |} s)) as [k Hk].
    rewrite Hk. clear Hk Hperm Hsizes.
    unfold seedStep. cbn [st_assigned st_clusters].
    rewrite (bool_decide_eq_false_2 (s ∈ ∅)) by set_solver.
    set (candidates := findCandidates pois _ _ s (s :: rest)).
    set (sorted := Array_sort _ candidates).
    assert (candidates.*1 = rest) as Hcand.
    { unfold candidates. rewrite findCandidates_all.
      - rewrite filter_cons_False by set_solver.
        apply NoDup_cons in Hnd as [Hs _].
        clear -Hs. induction rest as [|r rest IH]; [done|].
        rewrite filter_cons_True by set_solver. f_equal. apply IH. set_solver.
      - intros c Hc.
        assert (∀ x, x ∈ s :: rest → x < length pois) as Hrange.
        { intros x Hx. rewrite Hsorted in Hx. apply elem_of_seq in Hx. lia. }
        apply Hnear; apply Hrange; [by left|done]. }
    assert (length sorted = length rest) as Hsl.
    { unfold sorted. rewrite Array_sort_perm, <-Hcand. by rewrite length_fmap. }
    assert (length pois = S (length rest)) as Hn.
    { apply Permutation_length in Hsorted. rewrite length_seq in Hsorted. by simpl in Hsorted. }
    pose proof (addCandidates_room (r_maxPoisPerZone config) [s] ({[s]} ∪ ∅) sorted) as Hall.
    destruct (addCandidates _ _ _ sorted) as [cluster assigned'].
    simpl in Hall. rewrite Hall by (rewrite Hsl; lia). simpl.
    eexists _, _. split; [done|]. simpl. rewrite length_fmap. lia. }
  rewrite Heq in Hperm, Hsizes. simpl in Hperm.
  assert (others = []) as ->.
  { apply Permutation_length in Hperm. rewrite length_app, length_seq in Hperm.
    apply Forall_cons in Hsizes as [_ Hsizes].
    destruct Hsizes as [|c others [Hc _] _]; [done|].
    simpl in Hperm. rewrite length_app in Hperm. lia. }
  exists first. split; [done|]. by rewrite app_nil_r in Hperm.
Qed.

(** X12.  One zone for points that belong together.  When the points fit
    in one zone ([n <= maxPoisPerZone]) and are all within
    [clusterRadiusMeters] of each other, [planZones] returns a single zone,
    [zone-0], with every index in it. *)
Theorem planZones_one_zone pois (config : option ZoneConfig) :
  pois ≠ [] →
  (Z.of_nat (length pois) ≤ r_maxPoisPerZone (mergeConfig config))%Z →
  (∀ i j, i < length pois → j < length pois →
          (haversineDistance (poiLat pois i) (poiLng pois i)
                             (poiLat pois j) (poiLng pois j)
           <=? r_clusterRadiusMeters (mergeConfig config))%num = true) →
  ∃ zone, planZones pois config = [zone]
          ∧ id zone = "zone-0"
          ∧ poiIndices zone ≡ₚ seq 0 (length pois).
Proof.
  intros Hne Hroom Hnear.
  destruct (greedyClusters_one pois (mergeConfig config) Hne Hroom Hnear)
    as (cluster&Hgreedy&Hperm).
  unfold planZones, clusterPOIs, mergeSmallClusters.
  rewrite bool_decide_eq_false_2 by (by destruct pois).
  rewrite Hgreedy. rewrite bool_decide_eq_true_2 by (simpl; lia).
  eexists. split; [done|]. split; [done|]. done.
Qed.

End OneZone.

(** The staircase with a minimum of one: each zone is its seed. *)
Lemma planZones_min_one_radius_witness :
  Forall (λ zone,
            ∃ seed rest,
              poiIndices zone = seed :: rest
              ∧ ∀ i, i ∈ rest →
                     (haversineDistance (math := smallAngleMath)
                        (poiLat staircase seed) (poiLng staircase seed)
                        (poiLat staircase i) (poiLng staircase i)
                      <=? r_clusterRadiusMeters (mergeConfig cfg11))%num = true)
         (planZones (math := smallAngleMath) (mapPlanner := sampleMapPlanner)
            staircase cfg11).
Proof.
  apply (planZones_min_one_radius (math := smallAngleMath) (mapPlanner := sampleMapPlanner)
           staircase cfg11).
  by vm_compute.
Defined.

(** Two points ten metres apart, default configuration: one zone. *)
Lemma planZones_one_zone_witness :
  ∃ zone, planZones (math := smallAngleMath) (mapPlanner := sampleMapPlanner)
            tenMetresNorth None = [zone]
          ∧ id zone = "zone-0"
          ∧ poiIndices zone ≡ₚ seq 0 (length tenMetresNorth).
Proof.
  apply (planZones_one_zone (math := smallAngleMath) (mapPlanner := sampleMapPlanner)
           tenMetresNorth None).
  - done.
  - by vm_compute.
  - intros i j Hi Hj.
    destruct i as [|[|i]]; [| |simpl in Hi; lia];
      (destruct j as [|[|j]]; [| |simpl in Hj; lia]); by vm_compute.
Defined.

(* ====================================================================== *)
(** ** What the map size and the zoom do not touch *)
(* ====================================================================== *)

(** Sorting commutes with a projection the comparator looks through. *)
Lemma sort_insert_fmap {A B : Type} (f : A → B) (cmpA : A → A → number)
    (cmpB : B → B → number) x l :
  (∀ x y, cmpA x y = cmpB (f x) (f y)) →
  f <$> sort_insert cmpA x l = sort_insert cmpB (f x) (f <$> l).
Proof.
  intros Hcmp. induction l as [|y l IH]; [done|].
  cbn [sort_insert fmap list_fmap]. rewrite <-Hcmp.
  destruct (cmpA x y >? num_zero)%num; csimpl; by rewrite ?IH.
Qed.

Lemma Array_sort_fmap {A B : Type} (f : A → B) (cmpA : A → A → number)
    (cmpB : B → B → number) l :
  (∀ x y, cmpA x y = cmpB (f x) (f y)) →
  f <$> Array_sort cmpA l = Array_sort cmpB (f <$> l).
Proof.
  intros Hcmp. induction l as [|x l IH]; [done|].
  simpl. rewrite (sort_insert_fmap f cmpA cmpB) by done. by rewrite IH.
Qed.

Section ZoomIndependence.
Context {math : MathLib} {T : Type} {poiLike : POILike T}.
Implicit Types (pois : list T).

(** The clusters depend on the counts and the radius only. *)
Lemma mergePass_mapSize pois minP maxP radius size1 size2 wc :
  mergePass pois (mkRequiredZoneConfig minP maxP radius size1) wc
  = mergePass pois (mkRequiredZoneConfig minP maxP radius size2) wc.
Proof.
  unfold mergePass. generalize (seq 0 (length wc)) as todo.
  induction todo as [|i todo IH]; [done|].
  cbn [mergeScan]. by rewrite IH.
Qed.

Lemma mergeWhile_mapSize pois minP maxP radius size1 size2 wc :
  mergeWhile pois (mkRequiredZoneConfig minP maxP radius size1) wc
  = mergeWhile pois (mkRequiredZoneConfig minP maxP radius size2) wc.
Proof.
  remember (length wc) as n eqn:Hn. revert wc Hn.
  induction (lt_wf n) as [n _ IH]. intros wc ->.
  rewrite (mergeWhile_step pois (mkRequiredZoneConfig minP maxP radius size1)).
  rewrite (mergeWhile_step pois (mkRequiredZoneConfig minP maxP radius size2)).
  rewrite <-(mergePass_mapSize pois minP maxP radius size1 size2).
  destruct (mergePass pois _ wc) as [merged|] eqn:Hpass; [|done].
  eapply IH; [|done]. apply mergePass_length in Hpass. lia.
Qed.

Lemma clusterPOIs_mapSize pois (config1 config2 : RequiredZoneConfig) :
  r_minPoisPerZone config1 = r_minPoisPerZone config2 →
  r_maxPoisPerZone config1 = r_maxPoisPerZone config2 →
  r_clusterRadiusMeters config1 = r_clusterRadiusMeters config2 →
  clusterPOIs pois config1 = clusterPOIs pois config2.
Proof.
  destruct config1 as [minP maxP radius size1], config2 as [? ? ? size2]. simpl.
  intros <- <- <-. unfold clusterPOIs, mergeSmallClusters.
  change (greedyClusters pois (mkRequiredZoneConfig minP maxP radius size2))
    with (greedyClusters pois (mkRequiredZoneConfig minP maxP radius size1)).
  repeat case_bool_decide; try done. apply mergeWhile_mapSize.
Qed.

(** The zones without their zoom, from the clusters. *)
Lemma planZones_withoutZoom {mapPlanner : MapPlanner} pois (config : option ZoneConfig) :
  withoutZoom <$> planZones pois config
  = imap (λ index (v : list nat * Bounds * Coordinate), (zoneId index, v.1.1, v.1.2, v.2))
      (Array_sort
         (λ a b : list nat * Bounds * Coordinate,
            if (Math_abs (north a.1.2 - north b.1.2) >? hundredth)%num
            then (north b.1.2 - north a.1.2)%num
            else (west a.1.2 - west b.1.2)%num)
         ((λ c, (c, calculateBounds (memberCoordinates pois c),
                 calculateCenter (calculateBounds (memberCoordinates pois c))))
            <$> clusterPOIs pois (mergeConfig config))).
Proof.
  unfold planZones. case_bool_decide as Hlen.
  { unfold clusterPOIs. by rewrite bool_decide_eq_true_2. }
  set (view := λ zone : Zone, (poiIndices zone, bounds zone, center zone)).
  set (cmp := λ a b : list nat * Bounds * Coordinate, _).
  assert ((λ c, (c, calculateBounds (memberCoordinates pois c),
                 calculateCenter (calculateBounds (memberCoordinates pois c))))
            <$> clusterPOIs pois (mergeConfig config)
          = view <$> imap (buildZone pois (mergeConfig config))
                          (clusterPOIs pois (mergeConfig config))) as ->.
  { rewrite fmap_imap. by rewrite <-imap_const. }
  rewrite <-(Array_sort_fmap view zoneCompare cmp) by done.
  unfold reassignIds. rewrite fmap_imap, imap_fmap. done.
Qed.

(** X13.  What the map size and the zoom planner touch.  Two calls on
    the same points, with configurations that agree on [minPoisPerZone],
    [maxPoisPerZone] and [clusterRadiusMeters] and with any two
    [calculateZoom], return the same zones in the same order, identifiers,
    members, bounds and centers alike: only the zoom levels may differ. *)
Theorem planZones_zoom_only (mapPlanner1 mapPlanner2 : MapPlanner) pois
    (config1 config2 : option ZoneConfig) :
  r_minPoisPerZone (mergeConfig config1) = r_minPoisPerZone (mergeConfig config2) →
  r_maxPoisPerZone (mergeConfig config1) = r_maxPoisPerZone (mergeConfig config2) →
  r_clusterRadiusMeters (mergeConfig config1) = r_clusterRadiusMeters (mergeConfig config2) →
  withoutZoom <$> planZones (mapPlanner := mapPlanner1) pois config1
  = withoutZoom <$> planZones (mapPlanner := mapPlanner2) pois config2.
Proof.
  intros Hmin Hmax Hradius.
  rewrite !planZones_withoutZoom.
  by rewrite (clusterPOIs_mapSize pois _ _ Hmin Hmax Hradius).
Qed.

End ZoomIndependence.

(** The staircase planned for two map sizes with two zoom planners. *)
Lemma planZones_zoom_only_witness :
  withoutZoom <$> planZones (math := smallAngleMath) (mapPlanner := sampleMapPlanner)
                    staircase cfg11
  = withoutZoom <$> planZones (math := smallAngleMath) (mapPlanner := wideMapPlanner)
                      staircase cfg11_wide.
Proof.
  apply (planZones_zoom_only (math := smallAngleMath) sampleMapPlanner wideMapPlanner
           staircase cfg11 cfg11_wide); by vm_compute.
Defined.

(* ====================================================================== *)
(** ** The distance *)
(* ====================================================================== *)

Lemma Fin_eq (x y : Qc) : x = y → Fin x = Fin y.
Proof. by intros ->. Qed.

Lemma Qc_sign_opp (x : Qc) : Qc_sign (- x) = CompOpp (Qc_sign x).
Proof.
  unfold Qc_sign.
  destruct (x ?= 0)%Qc eqn:Hx; simpl.
  - apply Qceq_alt in Hx. subst x. by apply Qceq_alt.
  - apply Qclt_alt in Hx. apply (proj1 (Qcgt_alt _ _)). qc_lra.
  - apply Qcgt_alt in Hx. apply (proj1 (Qclt_alt _ _)). qc_lra.
Qed.

Lemma inf_of_sign_opp s : inf_of_sign (CompOpp s) = num_opp (inf_of_sign s).
Proof. by destruct s. Qed.

Lemma sign_mul_opp_l s t : sign_mul (CompOpp s) t = CompOpp (sign_mul s t).
Proof. by destruct s, t. Qed.

Lemma sign_mul_comm s t : sign_mul s t = sign_mul t s.
Proof. by destruct s, t. Qed.

Lemma num_opp_involutive a : num_opp (num_opp a) = a.
Proof. destruct a as [x| | |]; simpl; try done. apply Fin_eq. ring. Qed.

Lemma num_sub_swap a b : (a - b)%num = num_opp (b - a)%num.
Proof.
  destruct a as [x| | |], b as [y| | |]; simpl; try done. apply Fin_eq. ring.
Qed.

Lemma num_mul_comm a b : (a * b)%num = (b * a)%num.
Proof.
  destruct a as [x| | |], b as [y| | |]; simpl; try done;
    try (by destruct (Qc_sign x)); try (by destruct (Qc_sign y)).
  apply Fin_eq. ring.
Qed.

Lemma num_mul_opp_l a b : (num_opp a * b)%num = num_opp (a * b)%num.
Proof.
  destruct a as [x| | |], b as [y| | |]; simpl;
    rewrite ?Qc_sign_opp, ?sign_mul_opp_l, ?inf_of_sign_opp; try done.
  - apply Fin_eq. ring.
  - by destruct (Qc_sign y).
  - by destruct (Qc_sign y).
Qed.

Lemma num_mul_opp_r a b : (a * num_opp b)%num = num_opp (a * b)%num.
Proof. by rewrite (num_mul_comm a), num_mul_opp_l, (num_mul_comm b). Qed.

Lemma num_div_opp_l a b : (num_opp a / b)%num = num_opp (a / b)%num.
Proof.
  destruct a as [x| | |], b as [y| | |]; simpl; try done;
    try (by apply Fin_eq, Qc_is_canon); [|by case_bool_decide..].
  case_bool_decide.
  - by rewrite Qc_sign_opp, inf_of_sign_opp.
  - apply Fin_eq. by field.
Qed.

Section Distance.
Context {math : MathLib}.

Lemma toRad_opp x : toRad (num_opp x) = num_opp (toRad x).
Proof. unfold toRad. by rewrite num_mul_opp_l, num_div_opp_l. Qed.

(** X14.  The distance is symmetric.  With a sine that is odd, as the
    sine is, [haversineDistance] from a first point to a second is the
    distance from the second to the first, for all coordinates. *)
Theorem haversineDistance_sym (lat1 lng1 lat2 lng2 : number) :
  (∀ x, Math_sin (num_opp x) = num_opp (Math_sin x)) →
  haversineDistance lat1 lng1 lat2 lng2 = haversineDistance lat2 lng2 lat1 lng1.
Proof.
  intros Hodd. unfold haversineDistance.
  rewrite (num_sub_swap lat1 lat2), (num_sub_swap lng1 lng2).
  rewrite !toRad_opp, !num_div_opp_l, !Hodd.
  rewrite !num_mul_opp_l, !num_mul_opp_r, !num_opp_involutive.
  rewrite !num_mul_opp_l, !num_opp_involutive.
  by rewrite (num_mul_comm (Math_cos (toRad lat2))).
Qed.



End Distance.

(** The distance between the first two points of [meridian], both ways. *)
Lemma haversineDistance_sym_witness :
  haversineDistance (math := smallAngleMath)
    (num_of_Z 10) (num_of_Z 0) (dec 10001 1000) (num_of_Z 0)
  = haversineDistance (math := smallAngleMath)
      (dec 10001 1000) (num_of_Z 0) (num_of_Z 10) (num_of_Z 0).
Proof.
  apply (haversineDistance_sym (math := smallAngleMath)). done.
Defined.


(* ====================================================================== *)
(** ** Points lie inside their boxes *)
(* ====================================================================== *)

(** The running maximum is at least every value that compares, and is one
    of the values. *)
Lemma scanBest_gtb_upper l x :
  x ∈ l → x ≠ NaN →
  (x <=? scanBest num_gtb NegInf l)%num = true ∧ scanBest num_gtb NegInf l ∈ l.
Proof.
  intros Hx Hnan.
  assert (is_best num_gtb NegInf l (scanBest num_gtb NegInf l)) as (Hr&Hin&_&Hall).
  { apply scanBest_is_best; unfold num_gtb; try done.
    - apply num_ltb_irrefl.
    - intros a b c ??. by eapply num_ltb_trans.
    - intros a b. apply num_ltb_not_NaN_r.
    - intros a b ????. by apply num_ltb_trichotomy. }
  pose proof (Hall x Hx) as Hle.
  change ((scanBest num_gtb NegInf l <? x)%num = false) in Hle.
  split; [by apply num_ltb_false_leb|].
  destruct Hin as [Hinit|?]; [|done].
  rewrite Hinit in Hle |- *. by destruct x.
Qed.

(** The running minimum, likewise. *)
Lemma scanBest_ltb_lower l x :
  x ∈ l → x ≠ NaN →
  (scanBest num_ltb PosInf l <=? x)%num = true ∧ scanBest num_ltb PosInf l ∈ l.
Proof.
  intros Hx Hnan.
  assert (is_best num_ltb PosInf l (scanBest num_ltb PosInf l)) as (Hr&Hin&_&Hall).
  { apply scanBest_is_best; try done.
    - apply num_ltb_irrefl.
    - apply num_ltb_trans.
    - apply num_ltb_not_NaN_l.
    - apply num_ltb_trichotomy. }
  pose proof (Hall x Hx) as Hle.
  split; [by apply num_ltb_false_leb|].
  destruct Hin as [Hinit|?]; [|done].
  rewrite Hinit in Hle |- *. by destruct x.
Qed.

Lemma Races_calculateBounds_fields {T : Type} {poiLike : POILike T} (pois : list T) :
  Races.calculateBounds pois
  = {| north := scanBest num_gtb NegInf (lat <$> pois);
       south := scanBest num_ltb PosInf (lat <$> pois);
       east := scanBest num_gtb NegInf (lng <$> pois);
       west := scanBest num_ltb PosInf (lng <$> pois) |}.
Proof.
  unfold Races.calculateBounds.
  set (step := λ (b : Bounds) (poi : T), _).
  assert (∀ b, foldl step b pois
               = {| north := scanBest num_gtb (north b) (lat <$> pois);
                    south := scanBest num_ltb (south b) (lat <$> pois);
                    east := scanBest num_gtb (east b) (lng <$> pois);
                    west := scanBest num_ltb (west b) (lng <$> pois) |}) as Hfrom.
  { induction pois as [|poi pois IH]; intros b; simpl; [by destruct b|].
    by rewrite IH. }
  apply Hfrom.
Qed.

(** X16.  The bounding box of a race.  [calculateBounds] of the race
    mutations returns, for no points, the box from minus infinity to plus
    infinity turned inside out; otherwise every point whose latitude is a
    number lies between [south] and [north], which are then latitudes of
    points of the input, and every point whose longitude is a number lies
    between [west] and [east], which are longitudes of points of the
    input. *)
Theorem Races_calculateBounds_box {T : Type} {poiLike : POILike T} (pois : list T) :
  (pois = [] →
   Races.calculateBounds pois
   = {| north := NegInf; south := PosInf; east := NegInf; west := PosInf |})
  ∧ (∀ p, p ∈ pois → lat p ≠ NaN →
          (south (Races.calculateBounds pois) <=? lat p)%num = true
          ∧ (lat p <=? north (Races.calculateBounds pois))%num = true
          ∧ north (Races.calculateBounds pois) ∈ lat <$> pois
          ∧ south (Races.calculateBounds pois) ∈ lat <$> pois)
  ∧ (∀ p, p ∈ pois → lng p ≠ NaN →
          (west (Races.calculateBounds pois) <=? lng p)%num = true
          ∧ (lng p <=? east (Races.calculateBounds pois))%num = true
          ∧ east (Races.calculateBounds pois) ∈ lng <$> pois
          ∧ west (Races.calculateBounds pois) ∈ lng <$> pois).
Proof.
  split_and!.
  - by intros ->.
  - intros p Hp Hnan. rewrite Races_calculateBounds_fields. simpl.
    destruct (scanBest_gtb_upper (lat <$> pois) (lat p)); [by apply list_elem_of_fmap_2|done|].
    destruct (scanBest_ltb_lower (lat <$> pois) (lat p)); [by apply list_elem_of_fmap_2|done|].
    done.
  - intros p Hp Hnan. rewrite Races_calculateBounds_fields. simpl.
    destruct (scanBest_gtb_upper (lng <$> pois) (lng p)); [by apply list_elem_of_fmap_2|done|].
    destruct (scanBest_ltb_lower (lng <$> pois) (lng p)); [by apply list_elem_of_fmap_2|done|].
    done.
Qed.

(** X17.  Every point of a zone lies inside the zone's bounds: a member
    whose coordinates are numbers has its latitude between [south] and
    [north] and its longitude between [west] and [east] of its zone. *)
Theorem planZones_bounds_contain {math : MathLib} {mapPlanner : MapPlanner} {T : Type}
    {poiLike : POILike T} (pois : list T) (config : option ZoneConfig) :
  Forall (λ zone,
            Forall (λ i,
                      ∀ p, pois !! i = Some p → lat p ≠ NaN → lng p ≠ NaN →
                           (south (bounds zone) <=? lat p)%num = true
                           ∧ (lat p <=? north (bounds zone))%num = true
                           ∧ (west (bounds zone) <=? lng p)%num = true
                           ∧ (lng p <=? east (bounds zone))%num = true)
                   (poiIndices zone))
         (planZones pois config).
Proof.
  apply Forall_forall. intros zone Hzone.
  apply Forall_forall. intros i Hi p Hp Hlat Hlng.
  destruct (planZones_zone_shape pois config zone Hzone) as (->&_).
  rewrite calculateBounds_fields. simpl.
  unfold memberCoordinates. rewrite <-!list_fmap_compose.
  assert (lat p ∈ (coord_lat ∘ (λ i, {| coord_lat := poiLat pois i;
                                         coord_lng := poiLng pois i |}))
                    <$> poiIndices zone) as Hla.
  { apply list_elem_of_fmap. exists i. split; [|done]. simpl. unfold poiLat. by rewrite Hp. }
  assert (lng p ∈ (coord_lng ∘ (λ i, {| coord_lat := poiLat pois i;
                                         coord_lng := poiLng pois i |}))
                    <$> poiIndices zone) as Hlo.
  { apply list_elem_of_fmap. exists i. split; [|done]. simpl. unfold poiLng. by rewrite Hp. }
  destruct (scanBest_gtb_upper _ _ Hla Hlat) as [? _].
  destruct (scanBest_ltb_lower _ _ Hla Hlat) as [? _].
  destruct (scanBest_gtb_upper _ _ Hlo Hlng) as [? _].
  destruct (scanBest_ltb_lower _ _ Hlo Hlng) as [? _].
  done.
Qed.

(* ====================================================================== *)
(** ** Points far apart *)
(* ====================================================================== *)

Lemma num_leb_trans a b c :
  (a <=? b)%num = true → (b <=? c)%num = true → (a <=? c)%num = true.
Proof.
  destruct a as [x| | |], b as [y| | |], c as [z| | |]; simpl; try done.
  rewrite !bool_decide_eq_true. apply Qcle_trans.
Qed.

Lemma num_add_zero_l a : (num_zero + a)%num = a.
Proof.
  destruct a as [x| | |]; simpl; try done. apply Fin_eq.
  change (Q2Qc (inject_Z 0)) with 0%Qc. ring.
Qed.

Lemma num_div_one a : (a / num_of_nat 1)%num = a.
Proof.
  destruct a as [x| | |]; simpl; try done. apply Fin_eq.
  change (Q2Qc (inject_Z (Z.of_nat 1))) with 1%Qc. by field.
Qed.

Section FarApart.
Context {math : MathLib} {mapPlanner : MapPlanner} {T : Type} {poiLike : POILike T}.
Implicit Types (pois : list T).

(** The centroid of a cluster of one point is the point. *)
Lemma getClusterCenter_single pois i :
  getClusterCenter pois [i] = {| coord_lat := poiLat pois i; coord_lng := poiLng pois i |}.
Proof.
  unfold getClusterCenter. cbn [map foldl length].
  by rewrite !num_add_zero_l, !num_div_one.
Qed.

Lemma centerDistance_single pois i j :
  centerDistance pois [i] [j] = seedDistance pois i j.
Proof. unfold centerDistance. by rewrite !getClusterCenter_single. Qed.

(** X18.  Points far apart stay apart.  When no two points are within
    three cluster radii of each other (and the radius is not beyond its
    triple), every point is a zone of its own, whatever the minimum and
    the capacity are. *)
Theorem planZones_far_apart pois (config : option ZoneConfig) :
  (r_clusterRadiusMeters (mergeConfig config)
   <=? r_clusterRadiusMeters (mergeConfig config) * num_of_Z 3)%num = true →
  (∀ i j, i < length pois → j < length pois → i ≠ j →
          (haversineDistance (poiLat pois i) (poiLng pois i)
                             (poiLat pois j) (poiLng pois j)
           <=? r_clusterRadiusMeters (mergeConfig config) * num_of_Z 3)%num = false) →
  Forall (λ zone, length (poiIndices zone) = 1) (planZones pois config)
  ∧ length (planZones pois config) = length pois.
Proof.
  intros Hradius Hfar.
  set (cfg := mergeConfig config) in *.
  pose proof (greedyClusters_perm pois cfg) as Hperm.
  assert (NoDup (concat (greedyClusters pois cfg))) as Hnd.
  { rewrite Hperm. apply NoDup_seq. }
  assert (∀ c x, c ∈ greedyClusters pois cfg → x ∈ c → x < length pois) as Hrange.
  { intros c x Hc Hx.
    assert (x ∈ seq 0 (length pois)) as Hin; [|apply elem_of_seq in Hin; lia].
    rewrite <-Hperm. apply elem_of_concat. eauto. }
  assert (Forall (λ c : list nat, length c = 1) (greedyClusters pois cfg)) as Hone.
  { apply Forall_forall. intros c Hc.
    pose proof (greedyClusters_seed_first pois cfg) as Hshape.
    rewrite Forall_forall in Hshape.
    destruct (Hshape c Hc) as (seed&rest&->&Hwithin&_).
    destruct rest as [|i rest]; [done|]. exfalso.
    apply Forall_cons in Hwithin as [Hi _].
    assert (seed ≠ i) as Hne.
    { intros ->. apply list_elem_of_lookup in Hc as [k Hk].
      apply (take_drop_middle _ _ _) in Hk. rewrite <-Hk in Hnd.
      rewrite concat_app in Hnd. simpl in Hnd.
      apply NoDup_app in Hnd as (_&_&Hnd). apply NoDup_cons in Hnd as [Hnd _].
      apply Hnd. set_solver. }
    pose proof (Hfar seed i (Hrange _ seed Hc ltac:(by left))
                  (Hrange _ i Hc ltac:(right; by left)) Hne) as Hd.
    fold (seedDistance pois seed i) in Hd.
    by rewrite (num_leb_trans _ _ _ Hi Hradius) in Hd. }
  assert (mergePass pois cfg (greedyClusters pois cfg) = None) as Hnone.
  { apply mergePass_None. intros i Hi _.
    pose proof (findBestMerge_inv pois cfg (greedyClusters pois cfg) i) as Hinv.
    unfold best_inv in Hinv.
    destruct (findBestMerge pois cfg (greedyClusters pois cfg) i).1 as [j|]; [|done].
    exfalso. destruct Hinv as (Hj&(Hij&_&Hd)&_).
    apply list_lookup_lookup_total_lt in Hi, Hj.
    unfold pairDistance in Hd.
    pose proof (Forall_lookup_1 _ _ _ _ Hone Hi) as Hci.
    pose proof (Forall_lookup_1 _ _ _ _ Hone Hj) as Hcj.
    destruct (greedyClusters pois cfg !!! i) as [|a [|??]] eqn:Hai; try done.
    destruct (greedyClusters pois cfg !!! j) as [|b [|??]] eqn:Hbj; try done.
    rewrite centerDistance_single in Hd.
    assert (a ≠ b) as Hab.
    { intros ->. apply Hij.
      apply (NoDup_concat_lookup (greedyClusters pois cfg) i j [b] [b] b);
        [done|done|done|by left|by left]. }
    unfold seedDistance in Hd. rewrite (Hfar a b) in Hd; [done| | |done].
    - apply (Hrange [a]); [by eapply list_elem_of_lookup_2|by left].
    - apply (Hrange [b]); [by eapply list_elem_of_lookup_2|by left]. }
  assert (clusterPOIs pois cfg = greedyClusters pois cfg) as Hgreedy.
  { unfold clusterPOIs, mergeSmallClusters. case_bool_decide as Hlen; [by destruct pois|].
    case_bool_decide; [done|]. by rewrite mergeWhile_step, Hnone. }
  assert (Forall (λ zone, length (poiIndices zone) = 1) (planZones pois config)) as Hzones.
  { apply (proj1 (Forall_fmap poiIndices (λ c : list nat, length c = 1) _)).
    rewrite (planZones_poiIndices pois config). fold cfg. by rewrite Hgreedy. }
  split; [done|].
  pose proof (planZones_concat pois config) as Hall.
  apply Permutation_length in Hall. rewrite length_seq in Hall.
  rewrite <-Hall. clear -Hzones.
  induction Hzones as [|zone zones Hz _ IH]; simpl; [done|].
  rewrite length_app, Hz, IH. done.
Qed.

End FarApart.

(** Two points five kilometres apart, default configuration. *)
Lemma planZones_far_apart_witness :
  Forall (λ zone, length (poiIndices zone) = 1)
         (planZones (math := smallAngleMath) (mapPlanner := sampleMapPlanner)
            fiveKilometres None)
  ∧ length (planZones (math := smallAngleMath) (mapPlanner := sampleMapPlanner)
              fiveKilometres None) = length fiveKilometres.
Proof.
  apply (planZones_far_apart (math := smallAngleMath) (mapPlanner := sampleMapPlanner)
           fiveKilometres None).
  - by vm_compute.
  - intros i j Hi Hj Hij.
    destruct i as [|[|i]]; [| |simpl in Hi; lia];
      (destruct j as [|[|j]]; [| |simpl in Hj; lia]); try done; by vm_compute.
Defined.

(* ====================================================================== *)
(** ** Seeds from north to south *)
(* ====================================================================== *)

Lemma StronglySorted_sublist {A : Type} (R : relation A) (k l : list A) :
  k `sublist_of` l → StronglySorted R l → StronglySorted R k.
Proof.
  induction 1 as [|x k l Hsub IH|x k l Hsub IH]; intros Hsorted.
  - constructor.
  - apply StronglySorted_inv in Hsorted as [Hsorted Hall].
    constructor; [by apply IH|].
    rewrite Forall_forall in Hall |- *. intros y Hy. apply Hall.
    by eapply elem_of_sublist.
  - apply StronglySorted_inv in Hsorted as [Hsorted _]. by apply IH.
Qed.

Section NorthFirst.
Context {math : MathLib} {T : Type} {poiLike : POILike T}.
Implicit Types (pois : list T) (config : RequiredZoneConfig).

(** The seeds are visited from north to south. *)
Lemma sortedIndices_sorted pois :
  Forall (λ p, lat p ≠ NaN) pois →
  StronglySorted (λ a b, (poiLat pois a <? poiLat pois b)%num = false) (sortedIndices pois).
Proof.
  intros Hnum.
  assert (∀ i, i ∈ seq 0 (length pois) → poiLat pois i ≠ NaN) as Hdom.
  { intros i Hi%elem_of_seq. unfold poiLat.
    destruct (lookup_lt_is_Some_2 pois i) as [p Hp]; [lia|]. rewrite Hp.
    rewrite Forall_forall in Hnum. apply Hnum. by eapply list_elem_of_lookup_2. }
  unfold sortedIndices.
  rewrite <-(list_fmap_id (Array_sort _ (seq 0 (length pois)))).
  apply (StronglySorted_fmap_dom (λ i, i) (λ i, poiLat pois i ≠ NaN)
           (sorts_before (λ a b, (poiLat pois b - poiLat pois a)%num))).
  - intros a b Ha Hb. unfold sorts_before. by rewrite num_sub_gtb_zero.
  - rewrite Array_sort_perm. by apply Forall_forall.
  - apply (Array_sort_sorted _ (λ i, poiLat pois i ≠ NaN)); [| |by apply Forall_forall].
    + intros a b c Ha Hb Hc. unfold sorts_before.
      rewrite !num_sub_gtb_zero by done. intros Hab Hbc.
      by apply (num_ltb_false_trans _ (poiLat pois b)).
    + intros a b Ha Hb. unfold sorts_before.
      rewrite !num_sub_gtb_zero by done. intros Hlt.
      destruct (poiLat pois b <? poiLat pois a)%num eqn:Hba; [|done].
      pose proof (num_ltb_trans _ _ _ Hlt Hba) as Habs.
      by rewrite num_ltb_irrefl in Habs.
Qed.

(** The seed loop over the rest of the indices: the indices visited are
    assigned, each cluster has its seed first and no member north of the
    seed, and the seeds are among the indices visited, in that order. *)
Lemma seedLoop_north pois config pre todo st :
  NoDup (pre ++ todo) →
  StronglySorted (λ a b, (poiLat pois a <? poiLat pois b)%num = false) (pre ++ todo) →
  (∀ x, x ∈ pre → x ∈ st_assigned st) →
  Forall (λ c, ∃ s rest, c = s :: rest
                         ∧ ∀ i, i ∈ rest → (poiLat pois s <? poiLat pois i)%num = false)
         (st_clusters st) →
  (hd 0 <$> st_clusters st) `sublist_of` pre →
  Forall (λ c, ∃ s rest, c = s :: rest
                         ∧ ∀ i, i ∈ rest → (poiLat pois s <? poiLat pois i)%num = false)
         (st_clusters (foldl (seedStep pois config (pre ++ todo)) st todo))
  ∧ (hd 0 <$> st_clusters (foldl (seedStep pois config (pre ++ todo)) st todo))
      `sublist_of` (pre ++ todo).
Proof.
  revert pre st. induction todo as [|seed todo IH]; intros pre st Hnd Hsorted Hpre Hshape Hheads.
  { simpl. rewrite app_nil_r. done. }
  cbn [foldl].
  replace (pre ++ seed :: todo) with ((pre ++ [seed]) ++ todo) in *
    by (by rewrite <-app_assoc).
  apply IH; [done|done|..].
  - intros x [Hx| ->%list_elem_of_singleton]%elem_of_app.
    + unfold seedStep. case_bool_decide; [by apply Hpre|].
      destruct (addCandidates_spec (r_maxPoisPerZone config)
                  (Array_sort (λ a b : nat * number, (a.2 - b.2)%num)
                     (findCandidates pois (r_clusterRadiusMeters config)
                        ({[seed]} ∪ st_assigned st) seed ((pre ++ [seed]) ++ todo)))
                  [seed] ({[seed]} ∪ st_assigned st)) as (taken&_&_&Ha&_).
      destruct (addCandidates _ _ _ _) as [cluster assigned']. simpl in Ha |- *.
      subst assigned'. specialize (Hpre x Hx). set_solver.
    + unfold seedStep. case_bool_decide; [done|].
      destruct (addCandidates_spec (r_maxPoisPerZone config)
                  (Array_sort (λ a b : nat * number, (a.2 - b.2)%num)
                     (findCandidates pois (r_clusterRadiusMeters config)
                        ({[seed]} ∪ st_assigned st) seed ((pre ++ [seed]) ++ todo)))
                  [seed] ({[seed]} ∪ st_assigned st)) as (taken&_&_&Ha&_).
      destruct (addCandidates _ _ _ _) as [cluster assigned']. simpl in Ha |- *.
      subst assigned'. set_solver.
  - unfold seedStep. case_bool_decide; [done|].
    destruct (addCandidates_spec (r_maxPoisPerZone config)
                (Array_sort (λ a b : nat * number, (a.2 - b.2)%num)
                   (findCandidates pois (r_clusterRadiusMeters config)
                      ({[seed]} ∪ st_assigned st) seed ((pre ++ [seed]) ++ todo)))
                [seed] ({[seed]} ∪ st_assigned st)) as (taken&[k Hpref]&Hc&_&_).
    destruct (addCandidates _ _ _ _) as [cluster assigned']. simpl in Hc |- *.
    subst cluster. apply Forall_app. split; [done|]. constructor; [|constructor].
    exists seed, taken. split; [done|]. intros i Hi.
    assert (i ∈ (findCandidates pois (r_clusterRadiusMeters config)
                   ({[seed]} ∪ st_assigned st) seed ((pre ++ [seed]) ++ todo)).*1) as Hcand.
    { rewrite <-(Array_sort_perm (λ a b : nat * number, (a.2 - b.2)%num)), Hpref.
      set_solver. }
    apply findCandidates_fst_elem_of in Hcand as [Hin Hnot].
    assert (i ∈ todo) as Htodo.
    { apply elem_of_app in Hin as [[Hin| ->%list_elem_of_singleton]%elem_of_app|?]; [| |done].
      - specialize (Hpre i Hin). set_solver.
      - set_solver. }
    rewrite <-app_assoc in Hsorted. apply StronglySorted_app_1_r in Hsorted.
    apply StronglySorted_inv in Hsorted as [_ Hall].
    rewrite Forall_forall in Hall. by apply Hall.
  - unfold seedStep. case_bool_decide; [by apply sublist_inserts_r|].
    destruct (addCandidates_spec (r_maxPoisPerZone config)
                (Array_sort (λ a b : nat * number, (a.2 - b.2)%num)
                   (findCandidates pois (r_clusterRadiusMeters config)
                      ({[seed]} ∪ st_assigned st) seed ((pre ++ [seed]) ++ todo)))
                [seed] ({[seed]} ∪ st_assigned st)) as (taken&_&Hc&_&_).
    destruct (addCandidates _ _ _ _) as [cluster assigned']. simpl in Hc |- *.
    subst cluster. rewrite fmap_app. by apply sublist_app.
Qed.

(** X19.  Seeds from north to south.  When every latitude is a number,
    the clusters of the greedy stage come in the order of their seeds from
    north to south (no seed lies north of the seed of an earlier cluster),
    and no member of a cluster lies north of the cluster's seed. *)
Theorem greedyClusters_north_first pois config :
  Forall (λ p, lat p ≠ NaN) pois →
  (∀ a b s t ca cb, a < b →
     greedyClusters pois config !! a = Some (s :: ca) →
     greedyClusters pois config !! b = Some (t :: cb) →
     (poiLat pois s <? poiLat pois t)%num = false)
  ∧ Forall (λ c, ∃ s rest, c = s :: rest
                           ∧ ∀ i, i ∈ rest → (poiLat pois s <? poiLat pois i)%num = false)
           (greedyClusters pois config).
Proof.
  intros Hnum.
  pose proof (sortedIndices_sorted pois Hnum) as Hsorted.
  destruct (seedLoop_north pois config [] (sortedIndices pois)
              {| st_assigned := ∅; st_clusters := [] |}) as [Hshape Hheads]; simpl.
  - rewrite sortedIndices_perm. apply NoDup_seq.
  - done.
  - by intros x ?%elem_of_nil.
  - constructor.
  - done.
  - split; [|done].
    intros a b s t ca cb Hab Ha Hb.
    pose proof (StronglySorted_sublist _ _ _ Hheads Hsorted) as Hseeds.
    apply (StronglySorted_lookup _ _ a b s t Hseeds Hab).
    + rewrite list_lookup_fmap.
      change (hd 0 <$> greedyClusters pois config !! a = Some s). by rewrite Ha.
    + rewrite list_lookup_fmap.
      change (hd 0 <$> greedyClusters pois config !! b = Some t). by rewrite Hb.
Qed.

End NorthFirst.

(** The three points of [meridian], default configuration. *)
Lemma greedyClusters_north_first_witness :
  (∀ a b s t ca cb, a < b →
     greedyClusters (math := smallAngleMath) meridian DEFAULT_CONFIG !! a = Some (s :: ca) →
     greedyClusters (math := smallAngleMath) meridian DEFAULT_CONFIG !! b = Some (t :: cb) →
     (poiLat meridian s <? poiLat meridian t)%num = false)
  ∧ Forall (λ c, ∃ s rest, c = s :: rest
                           ∧ ∀ i, i ∈ rest →
                                  (poiLat meridian s <? poiLat meridian i)%num = false)
           (greedyClusters (math := smallAngleMath) meridian DEFAULT_CONFIG).
Proof.
  apply (greedyClusters_north_first (math := smallAngleMath) meridian DEFAULT_CONFIG).
  repeat constructor; done.
Defined.

(* ====================================================================== *)
(** ** The game timer: what the clock shows *)
(* ====================================================================== *)

(** X20.  The clock of the game timer.  Whatever the start, the limit and
    the current time are, the time left that [updateTimer] stores is never
    negative, and it is zero exactly from the end time on; [onExpire] is
    called at every update from the end time on when the caller gave one,
    and never before.  The minutes and seconds shown are the time left
    rounded down to the second: the seconds are from 0 to 59, the minutes
    are not negative.  A critical clock (under a minute) is also a low one
    (under five minutes) and shows zero minutes. *)
Theorem GameTimer_clock (startedAt timeLimitMinutes now : Z) (hasOnExpire : bool) :
  let timeLeft := (GameTimer.updateTimer startedAt timeLimitMinutes now hasOnExpire).1 in
  let called := (GameTimer.updateTimer startedAt timeLimitMinutes now hasOnExpire).2 in
  (0 ≤ timeLeft)%Z
  ∧ (timeLeft = 0%Z ↔ (GameTimer.endTime startedAt timeLimitMinutes ≤ now)%Z)
  ∧ (called = true
     ↔ hasOnExpire = true ∧ (GameTimer.endTime startedAt timeLimitMinutes ≤ now)%Z)
  ∧ (0 ≤ GameTimer.seconds timeLeft < 60)%Z
  ∧ (0 ≤ GameTimer.minutes timeLeft)%Z
  ∧ (GameTimer.minutes timeLeft * 60000 + GameTimer.seconds timeLeft * 1000 ≤ timeLeft
     < GameTimer.minutes timeLeft * 60000 + GameTimer.seconds timeLeft * 1000 + 1000)%Z
  ∧ (GameTimer.isCritical timeLeft = true →
     GameTimer.isLow timeLeft = true ∧ GameTimer.minutes timeLeft = 0%Z).
Proof.
  unfold GameTimer.updateTimer. cbn [fst snd]. cbv zeta.
  set (timeLeft := Z.max 0 (GameTimer.endTime startedAt timeLimitMinutes - now)).
  assert (0 ≤ timeLeft)%Z as Hpos by (unfold timeLeft; lia).
  assert (timeLeft = 0%Z ↔ (GameTimer.endTime startedAt timeLimitMinutes ≤ now)%Z) as Hzero
    by (unfold timeLeft; lia).
  unfold GameTimer.seconds, GameTimer.minutes, GameTimer.isCritical, GameTimer.isLow.
  rewrite Z.rem_mod_nonneg by lia.
  pose proof (Z.div_mod timeLeft 60000 ltac:(lia)) as Hdm.
  pose proof (Z.mod_pos_bound timeLeft 60000 ltac:(lia)) as Hmod.
  pose proof (Z.div_mod (timeLeft `mod` 60000) 1000 ltac:(lia)) as Hdm'.
  pose proof (Z.mod_pos_bound (timeLeft `mod` 60000) 1000 ltac:(lia)) as Hmod'.
  split_and!.
  - done.
  - done.
  - rewrite andb_true_iff, bool_decide_eq_true, Hzero. tauto.
  - apply Z.div_pos; lia.
  - apply Z.div_lt_upper_bound; lia.
  - apply Z.div_pos; lia.
  - lia.
  - lia.
  - rewrite !bool_decide_eq_true. intros Hcritical. split; [lia|].
    apply Z.div_small. lia.
Qed.
